(** * Spotify MCP server: credential cache, request wrappers and tools

    A shallow embedding of [server/server.py].  Python values that travel
    through the server are JSON shaped, so one inductive type [json] stands
    for them ([None] is [JNull]).  Exceptions are an explicit result type;
    the module level globals [access_token] and [expires_at], the clock and
    the HTTP traffic live in a [world] record threaded by a small monad.

    Conventions of the model:
    - a character is a code point below 256 (Rocq's [ascii]);
    - numbers are integers; an instant is a number of clock ticks;
    - [httpx] and [json] are not part of the repository: a reply of the
      network is an input of the model (a scripted list of replies), and the
      JSON decoder is a parameter carried by [host]. *)

From Stdlib Require Import ZArith String Ascii List Bool Lia.
From stdpp Require Import base option list strings.
Import ListNotations.

Local Open Scope string_scope.
Local Open Scope list_scope.

(** ** Python values and exceptions *)

#[local] Unset Elimination Schemes.
Inductive json : Type :=
| JNull
| JBool (b : bool)
| JNum (n : Z)
| JStr (s : string)
| JList (l : list json)
| JDict (d : list (string * json)).
#[local] Set Elimination Schemes.

Inductive exn : Type :=
| KeyError (k : string)
| TypeError
| AttributeError
| JSONDecodeError
| HTTPStatusError (status : Z)
| TransportError
| OverflowError.

(** The result of evaluating an expression that may raise. *)
Inductive res (A : Type) : Type :=
| Return (a : A)
| Raise (e : exn).
Arguments Return {A} a.
Arguments Raise {A} e.

#[export] Instance res_ret : MRet res := fun A a => Return a.
#[export] Instance res_bind : MBind res := fun A B f m =>
  match m with
  | Return a => f a
  | Raise e => Raise e
  end.

Fixpoint mapR {A B : Type} (f : A → res B) (l : list A) : res (list B) :=
  match l with
  | [] => Return []
  | a :: l' => b ← f a; bs ← mapR f l'; Return (b :: bs)
  end.

(** [bool(v)] *)
Definition truthy (v : json) : bool :=
  match v with
  | JNull => false
  | JBool b => b
  | JNum n => negb (n =? 0)%Z
  | JStr s => negb (s =? "")
  | JList l => match l with [] => false | _ => true end
  | JDict d => match d with [] => false | _ => true end
  end.

(** First binding of a key in a dict. *)
Fixpoint assoc (k : string) (d : list (string * json)) : option json :=
  match d with
  | [] => None
  | (k', v) :: d' => if k' =? k then Some v else assoc k d'
  end.

(** [v[k]] for a string key [k]. *)
Definition subscript (v : json) (k : string) : res json :=
  match v with
  | JDict d => match assoc k d with
               | Some x => Return x
               | None => Raise (KeyError k)
               end
  | _ => Raise TypeError
  end.

(** [v.get(k, dflt)]; [v.get(k)] is [dict_get v k JNull]. *)
Definition dict_get (v : json) (k : string) (dflt : json) : res json :=
  match v with
  | JDict d => Return (default dflt (assoc k d))
  | _ => Raise AttributeError
  end.

Fixpoint chars (s : string) : list json :=
  match s with
  | EmptyString => []
  | String c s' => JStr (String c EmptyString) :: chars s'
  end.

(** The elements a [for] loop or a comprehension visits. *)
Definition iterate (v : json) : res (list json) :=
  match v with
  | JList l => Return l
  | JStr s => Return (chars s)
  | JDict d => Return (map (fun kv => JStr (fst kv)) d)
  | _ => Raise TypeError
  end.

(** [len(l)] of a list built by the code. *)
Definition len (l : list json) : json := JNum (Z.of_nat (length l)).

(** ** Strings: [str.split(",")] and [str.strip()] *)

Definition comma : ascii := ","%char.

(** [str.isspace] on one character below 256: TAB..CR, FS..US, space,
    NEL and NBSP. *)
Definition isspace (c : ascii) : bool :=
  let n := nat_of_ascii c in
  ((9 <=? n)%nat && (n <=? 13)%nat) || ((28 <=? n)%nat && (n <=? 32)%nat)
  || (n =? 133)%nat || (n =? 160)%nat.

(** [s.split(sep)] for a one character separator: never empty. *)
Fixpoint split (sep : ascii) (s : string) : list string :=
  match s with
  | EmptyString => [EmptyString]
  | String c s' =>
      if Ascii.eqb c sep then EmptyString :: split sep s'
      else match split sep s' with
           | [] => [String c EmptyString]
           | w :: ws => String c w :: ws
           end
  end.

Fixpoint lstrip (s : string) : string :=
  match s with
  | EmptyString => EmptyString
  | String c s' => if isspace c then lstrip s' else s
  end.

Fixpoint rstrip (s : string) : string :=
  match s with
  | EmptyString => EmptyString
  | String c s' =>
      match rstrip s' with
      | EmptyString => if isspace c then EmptyString else String c EmptyString
      | r => String c r
      end
  end.

(** [s.strip()] *)
Definition strip (s : string) : string := rstrip (lstrip s).

(** [[u.strip() for u in s.split(",")]] *)
Definition split_uris (s : string) : list string := map strip (split comma s).

Definition uris_json (l : list string) : json := JList (map JStr l).

(** ** The world: globals, clock and network *)

Inductive verb : Type := GET | POST | PUT.

(** Where [httpx] puts the parameters: [params=], [json=] or [data=]. *)
Inductive payload : Type :=
| Query (params : json)
| JsonBody (params : json)
| Form (data : json).

Record request : Type := {
  r_verb : verb;
  r_url : string;
  r_payload : payload;
  r_bearer : option json   (* the token of the Authorization header *)
}.

Record response : Type := {
  status_code : Z;
  content : string
}.

(** What the process is started with, and the JSON decoder. *)
Record host : Type := {
  json_loads : string → option json;
  CLIENT_ID : json;
  CLIENT_SECRET : json;
  REFRESH_TOKEN : json
}.

Record world : Type := {
  access_token : json;                  (* global, [None] at start *)
  expires_at : Z;                       (* global, [0] at start *)
  clock : Z;                            (* what [time.time()] reads *)
  upstream : list (Z * res response);   (* replies to come: latency, outcome *)
  sent : list request                   (* requests issued so far *)
}.

Definition M (A : Type) : Type := world → res A * world.

#[export] Instance M_ret : MRet M := fun A a w => (Return a, w).
#[export] Instance M_bind : MBind M := fun A B f m w =>
  match m w with
  | (Return a, w') => f a w'
  | (Raise e, w') => (Raise e, w')
  end.

Definition lift {A : Type} (r : res A) : M A := fun w => (r, w).

Definition time_time : M Z := fun w => (Return (clock w), w).

Definition read_access_token : M json := fun w => (Return (access_token w), w).

Definition read_expires_at : M Z := fun w => (Return (expires_at w), w).

Definition set_access_token (v : json) : M unit := fun w =>
  (Return tt,
   {| access_token := v; expires_at := expires_at w; clock := clock w;
      upstream := upstream w; sent := sent w |}).

Definition set_expires_at (t : Z) : M unit := fun w =>
  (Return tt,
   {| access_token := access_token w; expires_at := t; clock := clock w;
      upstream := upstream w; sent := sent w |}).

(** An awaited [client.get/post/put] in two halves: the request goes on the
    wire, and later the coroutine is resumed with the next scripted reply
    (with no reply left the transport fails). *)
Definition issue (rq : request) : M unit := fun w =>
  (Return tt,
   {| access_token := access_token w; expires_at := expires_at w;
      clock := clock w; upstream := upstream w; sent := sent w ++ [rq] |}).

Definition receive : M response := fun w =>
  match upstream w with
  | [] => (Raise TransportError, w)
  | (dt, o) :: rest =>
      (o, {| access_token := access_token w; expires_at := expires_at w;
             clock := (clock w + dt)%Z; upstream := rest; sent := sent w |})
  end.

Definition send (rq : request) : M response := issue rq;; receive.

(** [resp.is_success] and [resp.raise_for_status()] of httpx. *)
Definition is_success (r : response) : bool :=
  (200 <=? status_code r)%Z && (status_code r <=? 299)%Z.

Definition raise_for_status (r : response) : res unit :=
  if is_success r then Return tt else Raise (HTTPStatusError (status_code r)).

(** [resp.json()]: the decoder rejects an empty body. *)
Definition resp_json (h : host) (r : response) : res json :=
  match content r with
  | EmptyString => Raise JSONDecodeError
  | body => match json_loads h body with
            | Some v => Return v
            | None => Raise JSONDecodeError
            end
  end.

(** The integers that convert to a float: those below [2^1024 - 2^970]
    in absolute value (from there on the nearest double is out of range). *)
Definition float_limit : Z := (2 ^ 1024 - 2 ^ 970)%Z.

Definition fits_float (n : Z) : bool := (Z.abs n <? float_limit)%Z.

(** [now + v] for an instant [now], a float: an integer is converted to a
    float first, which raises [OverflowError] when it does not fit; a bool
    counts as 0 or 1; anything else of [json] cannot be added.  (A JSON
    number with a fraction or an exponent is not a value of [json].) *)
Definition add_seconds (now : Z) (v : json) : res Z :=
  match v with
  | JNum n => if fits_float n then Return (now + n)%Z else Raise OverflowError
  | JBool b => Return (now + (if b then 1 else 0))%Z
  | _ => Raise TypeError
  end.

(** ** The access token *)

Definition API_URL : string := "https://api.spotify.com/v1".
Definition TOKEN_URL : string := "https://accounts.spotify.com/api/token".

Definition token_request (h : host) : request :=
  {| r_verb := POST;
     r_url := TOKEN_URL;
     r_payload := Form (JDict [("grant_type", JStr "refresh_token");
                               ("refresh_token", REFRESH_TOKEN h);
                               ("client_id", CLIENT_ID h);
                               ("client_secret", CLIENT_SECRET h)]);
     r_bearer := None |}.

(** [access_token and time.time() < expires_at] *)
Definition cached_token_valid : M bool :=
  tok ← read_access_token;
  if truthy tok then
    now ← time_time; exp ← read_expires_at; mret (now <? exp)%Z
  else mret false.

(** What [get_access_token] does once the awaited POST has answered. *)
Definition finish_refresh (h : host) (resp : response) : M json :=
  lift (raise_for_status resp);;
  data ← lift (resp_json h resp);
  tok ← lift (subscript data "access_token");
  set_access_token tok;;
  now ← time_time;
  e ← lift (subscript data "expires_in");
  exp ← lift (add_seconds now e);
  set_expires_at exp;;
  read_access_token.

Definition get_access_token (h : host) : M json :=
  valid ← cached_token_valid;
  if valid : bool then read_access_token
  else resp ← send (token_request h); finish_refresh h resp.

(** ** Request wrappers *)

Definition api_request (v : verb) (path : string) (p : payload) (token : json)
    : request :=
  {| r_verb := v; r_url := API_URL ++ path; r_payload := p;
     r_bearer := Some token |}.

Definition spotify_get (h : host) (path : string) (params : json) : M json :=
  token ← get_access_token h;
  resp ← send (api_request GET path (Query params) token);
  lift (raise_for_status resp);;
  lift (resp_json h resp).

Definition spotify_post (h : host) (path : string) (params : json) : M json :=
  token ← get_access_token h;
  resp ← send (api_request POST path (JsonBody params) token);
  lift (raise_for_status resp);;
  lift (resp_json h resp).

Definition status_ok : json := JDict [("status", JStr "ok")].

Definition spotify_put (h : host) (path : string) (params : json) : M json :=
  token ← get_access_token h;
  resp ← send (api_request PUT path (JsonBody params) token);
  if (status_code resp =? 204)%Z || (status_code resp =? 200)%Z
     || (content resp =? "")
  then mret status_ok
  else lift (raise_for_status resp);; lift (resp_json h resp).

(** ** Tools: shaping the upstream payloads *)

(** [[a.get("name") for a in v]] *)
Definition artist_names (v : json) : res json :=
  l ← iterate v;
  names ← mapR (fun a => dict_get a "name" JNull) l;
  mret (JList names).

(** The [try: raw[container]["items"] except Exception: []] of
    [search_spotify]. *)
Definition search_items (search_type : string) (raw : json) : json :=
  match c ← subscript raw (search_type ++ "s"); subscript c "items" with
  | Return items => items
  | Raise _ => JList []
  end.

(** One dict appended to [cleaned] by [search_spotify]. *)
Definition clean_search_item (item : json) : res json :=
  id ← dict_get item "id" JNull;
  name ← dict_get item "name" JNull;
  uri ← dict_get item "uri" JNull;
  has_artists ← dict_get item "artists" JNull;
  artists ← (if truthy has_artists
             then l ← dict_get item "artists" (JList []); artist_names l
             else mret JNull);
  has_album ← dict_get item "album" JNull;
  album ← (if truthy has_album
           then a ← dict_get item "album" (JDict []); dict_get a "name" JNull
           else mret JNull);
  mret (JDict [("id", id); ("name", name); ("uri", uri);
               ("artists", artists); ("album", album)]).

(** [search_spotify] after the request: lines 145 to 164. *)
Definition normalize_search (search_type : string) (raw : json) : res json :=
  items ← iterate (search_items search_type raw);
  cleaned ← mapR clean_search_item items;
  mret (JDict [("type", JStr search_type); ("items", JList cleaned)]).

Definition search_spotify (h : host) (query search_type : string) (limit : Z)
    : M json :=
  raw ← spotify_get h "/search"
          (JDict [("q", JStr query); ("type", JStr search_type);
                  ("limit", JNum limit)]);
  lift (normalize_search search_type raw).

(** One dict appended to [cleaned] by [artist_top_tracks]. *)
Definition clean_top_track (t : json) : res json :=
  id ← dict_get t "id" JNull;
  name ← dict_get t "name" JNull;
  uri ← dict_get t "uri" JNull;
  l ← dict_get t "artists" (JList []);
  artists ← artist_names l;
  a ← dict_get t "album" (JDict []);
  album ← dict_get a "name" JNull;
  popularity ← dict_get t "popularity" JNull;
  mret (JDict [("id", id); ("name", name); ("uri", uri);
               ("artists", artists); ("album", album);
               ("popularity", popularity)]).

Definition normalize_artist_top_tracks (raw : json) : res json :=
  tracks ← dict_get raw "tracks" (JList []);
  ts ← iterate tracks;
  cleaned ← mapR clean_top_track ts;
  mret (JDict [("tracks", JList cleaned)]).

Definition artist_top_tracks (h : host) (artist_id market : string) : M json :=
  raw ← spotify_get h ("/artists/" ++ artist_id ++ "/top-tracks")
          (JDict [("market", JStr market)]);
  lift (normalize_artist_top_tracks raw).

Definition current_user_profile (h : host) : M json :=
  spotify_get h "/me" JNull.

(** One dict appended by [current_user_top_tracks], [idx] counted from 1. *)
Definition clean_ranked_track (idx : Z) (t : json) : res json :=
  id ← dict_get t "id" JNull;
  name ← dict_get t "name" JNull;
  uri ← dict_get t "uri" JNull;
  l ← dict_get t "artists" (JList []);
  artists ← artist_names l;
  a ← dict_get t "album" (JDict []);
  album ← dict_get a "name" JNull;
  mret (JDict [("rank", JNum idx); ("id", id); ("name", name); ("uri", uri);
               ("artists", artists); ("album", album)]).

Fixpoint clean_ranked (idx : Z) (l : list json) : res (list json) :=
  match l with
  | [] => Return []
  | t :: l' =>
      c ← clean_ranked_track idx t;
      cs ← clean_ranked (idx + 1) l';
      Return (c :: cs)
  end.

Definition normalize_top_tracks (raw : json) : res json :=
  got ← dict_get raw "items" (JList []);
  ts ← iterate (if truthy got then got else JList []);
  cleaned ← clean_ranked 1 ts;
  mret (JList cleaned).

Definition current_user_top_tracks (h : host) (time_range : string) (limit : Z)
    : M json :=
  raw ← spotify_get h "/me/top/tracks"
          (JDict [("time_range", JStr time_range); ("limit", JNum limit)]);
  lift (normalize_top_tracks raw).

(** One dict of the [playlists] comprehension. *)
Definition clean_playlist (p : json) : res json :=
  id ← subscript p "id";
  name ← subscript p "name";
  uri ← subscript p "uri";
  description ← subscript p "description";
  o ← subscript p "owner";
  owner ← subscript o "display_name";
  t ← subscript p "tracks";
  tracks_total ← subscript t "total";
  mret (JDict [("id", id); ("name", name); ("uri", uri);
               ("description", description); ("owner", owner);
               ("tracks_total", tracks_total)]).

Definition normalize_playlists (limit offset : Z) (raw : json) : res json :=
  items ← subscript raw "items";
  total ← subscript raw "total";
  ps ← iterate items;
  playlists ← mapR clean_playlist ps;
  mret (JDict [("total_playlists", total); ("returned", len playlists);
               ("limit", JNum limit); ("offset", JNum offset);
               ("playlists", JList playlists)]).

Definition get_current_user_playlists (h : host) (limit offset : Z) : M json :=
  raw ← spotify_get h "/me/playlists"
          (JDict [("limit", JNum limit); ("offset", JNum offset)]);
  lift (normalize_playlists limit offset raw).

(** [[a["name"] for a in v]] *)
Definition artist_names_strict (v : json) : res json :=
  l ← iterate v;
  names ← mapR (fun a => subscript a "name") l;
  mret (JList names).

(** One dict appended to [cleaned] by [get_playlist_items]. *)
Definition clean_playlist_entry (entry : json) : res json :=
  track ← subscript entry "track";
  id ← subscript track "id";
  name ← subscript track "name";
  uri ← subscript track "uri";
  l ← subscript track "artists";
  artists ← artist_names_strict l;
  a ← subscript track "album";
  album ← subscript a "name";
  explicit ← subscript track "explicit";
  mret (JDict [("id", id); ("name", name); ("uri", uri);
               ("artists", artists); ("album", album);
               ("explicit", explicit)]).

Definition normalize_playlist_items (limit offset : Z) (raw : json) : res json :=
  items ← subscript raw "items";
  total ← subscript raw "total";
  es ← iterate items;
  cleaned ← mapR clean_playlist_entry es;
  mret (JDict [("total_tracks", total); ("returned", len cleaned);
               ("limit", JNum limit); ("offset", JNum offset);
               ("items", JList cleaned)]).

Definition get_playlist_items (h : host) (playlist_id : string) (limit offset : Z)
    : M json :=
  raw ← spotify_get h ("/playlists/" ++ playlist_id ++ "/tracks")
          (JDict [("limit", JNum limit); ("offset", JNum offset)]);
  lift (normalize_playlist_items limit offset raw).

(** ** Tools: building the request *)

Definition create_playlist (h : host) (user_id name description : string)
    (public : bool) : M json :=
  spotify_post h ("/users/" ++ user_id ++ "/playlists")
    (JDict [("name", JStr name); ("description", JStr description);
            ("public", JBool public)]).

Definition add_to_playlist_body (track_uri : string) : json :=
  let uri_list := split_uris track_uri in
  JDict [("uris", uris_json uri_list)].

Definition add_to_playlist (h : host) (playlist_id track_uri : string) : M json :=
  spotify_post h ("/playlists/" ++ playlist_id ++ "/tracks")
    (add_to_playlist_body track_uri).

Definition opt_str (o : option string) : json :=
  match o with Some s => JStr s | None => JNull end.

Definition opt_int (o : option Z) : json :=
  match o with Some n => JNum n | None => JNull end.

(** [[u.strip() for u in track_uris.split(",")] if track_uris else None] *)
Definition playback_uris (track_uris : option string) : json :=
  match track_uris with
  | Some s => if truthy (JStr s) then uris_json (split_uris s) else JNull
  | None => JNull
  end.

Definition start_playback_body (context_uri track_uris : option string)
    (position_ms : option Z) : json :=
  let uris := playback_uris track_uris in
  JDict [("context_uri", opt_str context_uri); ("uris", uris);
         ("position_ms", opt_int position_ms)].

Definition start_playback (h : host) (context_uri track_uris : option string)
    (position_ms : option Z) : M json :=
  spotify_put h "/me/player/play"
    (start_playback_body context_uri track_uris position_ms).

Definition pause_playback (h : host) : M json :=
  spotify_put h "/me/player/pause" JNull.

(** ** Concurrent callers of [get_access_token]

    The server runs its tools as coroutines of one event loop: a coroutine
    runs alone until it awaits, and [get_access_token] awaits once, at the
    token POST.  [start_call] is the coroutine up to that await,
    [resume_call] is the rest. *)

Inductive task : Type :=
| Ready                      (* called, not yet run *)
| Awaiting                   (* suspended at the token POST *)
| Done (r : res json).       (* returned or raised *)

(** Up to the await: [None] when the coroutine suspends. *)
Definition start_call (h : host) : M (option json) :=
  valid ← cached_token_valid;
  if valid : bool then tok ← read_access_token; mret (Some tok)
  else issue (token_request h);; mret None.

Definition resume_call (h : host) : M json :=
  resp ← receive; finish_refresh h resp.

Record sys : Type := {
  shared : world;
  tasks : list task
}.

Inductive event : Type :=
| Begin (i : nat)     (* the loop runs caller [i] up to its await *)
| Reply (i : nat).    (* the next reply arrives and caller [i] is resumed *)

Definition started (r : res (option json)) : task :=
  match r with
  | Return (Some tok) => Done (Return tok)
  | Return None => Awaiting
  | Raise e => Done (Raise e)
  end.

Definition step (h : host) (s : sys) (e : event) : sys :=
  match e with
  | Begin i =>
      match tasks s !! i with
      | Some Ready =>
          let '(r, w) := start_call h (shared s) in
          {| shared := w; tasks := <[i := started r]> (tasks s) |}
      | _ => s
      end
  | Reply i =>
      match tasks s !! i with
      | Some Awaiting =>
          let '(r, w) := resume_call h (shared s) in
          {| shared := w; tasks := <[i := Done r]> (tasks s) |}
      | _ => s
      end
  end.

Definition run (h : host) (es : list event) (s : sys) : sys :=
  foldl (step h) s es.

(** [n] callers, none of which has run yet. *)
Definition spawn (n : nat) (w : world) : sys :=
  {| shared := w; tasks := replicate n Ready |}.

(** The exchanges with the token endpoint so far. *)
Definition exchanges (w : world) : nat :=
  length (filter (fun rq => r_url rq = TOKEN_URL) (sent w)).

(** ** Vocabulary of the statements *)

(** The test of [get_access_token]: a token is cached and the clock is
    before its expiry. *)
Definition token_fresh (w : world) : bool :=
  truthy (access_token w) && (clock w <? expires_at w)%Z.

(** The same test with a safety margin before the expiry. *)
Definition fresh_beyond (margin : Z) (w : world) : Prop :=
  truthy (access_token w) = true ∧ (clock w < expires_at w - margin)%Z.

(** A store that refreshes [margin] ticks before the expiry: the cached
    token is handed out without any exchange while it is fresh beyond the
    margin, and otherwise one exchange is made and what it returns is what
    the store then holds. *)
Definition refreshes_with_margin (margin : Z) : Prop :=
  ∀ (h : host) (w : world),
    (fresh_beyond margin w →
       get_access_token h w = (Return (access_token w), w))
    ∧ (¬ fresh_beyond margin w →
       exchanges (get_access_token h w).2 = S (exchanges w)
       ∧ ∀ tok, (get_access_token h w).1 = Return tok →
                access_token (get_access_token h w).2 = tok).

(** The world after a refresh that stored [tok], read from a reply that
    took [dt] ticks and announced a life time of [e] ticks. *)
Definition refreshed (h : host) (tok : json) (dt e : Z)
    (rest : list (Z * res response)) (w : world) : world :=
  {| access_token := tok; expires_at := (clock w + dt + e)%Z;
     clock := (clock w + dt)%Z; upstream := rest;
     sent := sent w ++ [token_request h] |}.

(** What a caller resumed on reply [o] returns or raises. *)
Definition refresh_result (h : host) (o : res response) : res json :=
  resp ← o;
  raise_for_status resp;;
  data ← resp_json h resp;
  tok ← subscript data "access_token";
  e ← subscript data "expires_in";
  add_seconds 0 e;;
  mret tok.

(** The [k]-th reply of the script. *)
Definition reply_outcome (w : world) (k : nat) : res response :=
  match upstream w !! k with
  | Some (_, o) => o
  | None => Raise TransportError
  end.

(** Single flight: one exchange serves every caller. *)
Definition single_flight (before after : sys) : Prop :=
  exchanges (shared after) = S (exchanges (shared before))
  ∧ ∃ tok, Forall (fun t => t = Done (Return tok)) (tasks after).

(** The schedule in which callers [0..n-1] all run up to their await and
    the replies then resume them in the order [order]. *)
Definition herd (n : nat) (order : list nat) : list event :=
  map Begin (seq 0 n) ++ map Reply order.

(** Every herd of callers that finds the cache absent or expired is served
    by a single exchange. *)
Definition herd_collapses : Prop :=
  ∀ (h : host) (w : world) (n : nat) (order : list nat),
    token_fresh w = false → (0 < n)%nat → order ≡ₚ seq 0 n →
    single_flight (spawn n w) (run h (herd n order) (spawn n w)).

(** The world with [rqs] more requests on the wire. *)
Definition logged (rqs : list request) (w : world) : world :=
  {| access_token := access_token w; expires_at := expires_at w;
     clock := clock w; upstream := upstream w; sent := sent w ++ rqs |}.

Fixpoint contains (c : ascii) (s : string) : bool :=
  match s with
  | EmptyString => false
  | String c' s' => Ascii.eqb c' c || contains c s'
  end.

(** Only white space. *)
Fixpoint blank (s : string) : bool :=
  match s with
  | EmptyString => true
  | String c s' => isspace c && blank s'
  end.

(** No white space at either end. *)
Definition trimmed (s : string) : Prop := lstrip s = s ∧ rstrip s = s.

(** [",".join(ws)] *)
Fixpoint join (ws : list string) : string :=
  match ws with
  | [] => EmptyString
  | [w] => w
  | w :: ws' => w ++ String comma (join ws')
  end.

(** A URI as the caller may write it: white space, the URI, white space. *)
Record field : Type := {
  lead : string;
  uri : string;
  trail : string
}.

Definition written (f : field) : string := lead f ++ uri f ++ trail f.

Definition well_formed (f : field) : Prop :=
  blank (lead f) = true ∧ blank (trail f) = true
  ∧ trimmed (uri f) ∧ contains comma (uri f) = false.

(** The white space [lstrip] removes, and the white space [rstrip]
    removes. *)
Fixpoint leading (s : string) : string :=
  match s with
  | EmptyString => EmptyString
  | String c s' => if isspace c then String c (leading s') else EmptyString
  end.

Fixpoint trailing (s : string) : string :=
  match s with
  | EmptyString => EmptyString
  | String c s' =>
      match rstrip (String c s') with
      | EmptyString => String c s'
      | _ => trailing s'
      end
  end.

(** One piece between two commas, read as a field. *)
Definition parse_field (p : string) : field :=
  {| lead := leading p; uri := strip p; trail := trailing (lstrip p) |}.

(** The body's field [k], as the upstream endpoint reads it. *)
Definition body_field (k : string) (body : json) : res json := subscript body k.

(** The container of a search reply, or its [items] member, is not there:
    one of the two subscripts of [raw[container]["items"]] raises. *)
Definition container_missing (search_type : string) (raw : json) : Prop :=
  (∃ e, subscript raw (search_type ++ "s") = Raise e)
  ∨ (∃ c e, subscript raw (search_type ++ "s") = Return c
            ∧ subscript c "items" = Raise e).

(** The empty result of a search. *)
Definition no_results (search_type : string) : json :=
  JDict [("type", JStr search_type); ("items", JList [])].

(** *** Concrete hosts, worlds and payloads *)

Definition reply_A : json :=
  JDict [("access_token", JStr "tokA"); ("expires_in", JNum 3600)].
Definition reply_B : json :=
  JDict [("access_token", JStr "tokB"); ("expires_in", JNum 3600)].

Definition track_1 : json :=
  JDict [("id", JStr "1"); ("name", JStr "Song"); ("uri", JStr "spotify:track:1");
         ("artists", JList [JDict [("name", JStr "A")]]);
         ("album", JDict [("name", JStr "Alb")])].

Definition search_payload : json :=
  JDict [("tracks", JDict [("items", JList [track_1])])].

(** A podcast episode, as playlists hold them: no artists, no album. *)
Definition episode_1 : json :=
  JDict [("id", JStr "e1"); ("name", JStr "Episode");
         ("uri", JStr "spotify:episode:e1"); ("explicit", JBool false)].

Definition playlist_payload : json :=
  JDict [("items", JList [JDict [("track", episode_1)]]); ("total", JNum 1)].

(** A decoder that knows the bodies used below. *)
Definition demo_loads (s : string) : option json :=
  if s =? "body A" then Some reply_A
  else if s =? "body B" then Some reply_B
  else if s =? "search body" then Some search_payload
  else if s =? "playlist body" then Some playlist_payload
  else None.

Definition demo_host : host :=
  {| json_loads := demo_loads; CLIENT_ID := JStr "id";
     CLIENT_SECRET := JStr "secret"; REFRESH_TOKEN := JStr "refresh" |}.

Definition ok_reply (body : string) : Z * res response :=
  (1%Z, Return {| status_code := 200; content := body |}).

Definition reply_with (status : Z) (body : string) : Z * res response :=
  (1%Z, Return {| status_code := status; content := body |}).

(** The process right after start: nothing cached. *)
Definition cold (replies : list (Z * res response)) : world :=
  {| access_token := JNull; expires_at := 0; clock := 1000;
     upstream := replies; sent := [] |}.

(** A token is cached and expires at tick 2000; the clock reads [now]. *)
Definition warm (now : Z) (replies : list (Z * res response)) : world :=
  {| access_token := JStr "tok"; expires_at := 2000; clock := now;
     upstream := replies; sent := [] |}.

(** ** Last.fm *)

Definition LASTFM_API_URL : string := "http://ws.audioscrobbler.com/2.0/".

(** [d[k] = v] on a dict that keeps its insertion order. *)
Fixpoint dict_set (k : string) (v : json) (d : list (string * json))
    : list (string * json) :=
  match d with
  | [] => [(k, v)]
  | (k', v') :: d' =>
      if k' =? k then (k', v) :: d' else (k', v') :: dict_set k v d'
  end.

(** [d.update(params)] *)
Definition dict_update (d params : list (string * json)) : list (string * json) :=
  foldl (fun acc kv => dict_set kv.1 kv.2 acc) d params.

(** The dict [q] of [lastfm_get]; [LASTFM_API_KEY] is read from the
    environment when the module is loaded. *)
Definition lastfm_query (LASTFM_API_KEY : json) (method : string)
    (params : list (string * json)) : list (string * json) :=
  dict_update [("method", JStr method); ("api_key", LASTFM_API_KEY);
               ("format", JStr "json"); ("autocorrect", JStr "1")] params.

Definition lastfm_request (LASTFM_API_KEY : json) (method : string)
    (params : list (string * json)) : request :=
  {| r_verb := GET; r_url := LASTFM_API_URL;
     r_payload := Query (JDict (lastfm_query LASTFM_API_KEY method params));
     r_bearer := None |}.

Definition lastfm_get (h : host) (LASTFM_API_KEY : json) (method : string)
    (params : list (string * json)) : M json :=
  resp ← send (lastfm_request LASTFM_API_KEY method params);
  lift (raise_for_status resp);;
  lift (resp_json h resp).

(** One dict of the [results] comprehension of [get_similar_tracks]. *)
Definition clean_similar_track (t : json) : res json :=
  name ← subscript t "name";
  a ← subscript t "artist";
  artist ← subscript a "name";
  mret (JDict [("track", name); ("artist", artist)]).

Definition normalize_similar_tracks (raw : json) : res json :=
  st ← subscript raw "similartracks";
  tracks ← subscript st "track";
  ts ← iterate tracks;
  results ← mapR clean_similar_track ts;
  mret (JDict [("similar_tracks", JList results)]).

Definition get_similar_tracks (h : host) (LASTFM_API_KEY : json)
    (artist_name track_name : string) (limit : Z) : M json :=
  raw ← lastfm_get h LASTFM_API_KEY "track.getSimilar"
          [("artist", JStr artist_name); ("track", JStr track_name);
           ("limit", JNum limit)];
  lift (normalize_similar_tracks raw).

Definition normalize_similar_artists (raw : json) : res json :=
  sa ← subscript raw "similarartists";
  artists ← subscript sa "artist";
  names ← artist_names_strict artists;
  mret (JDict [("similar_artists", names)]).

Definition get_similar_artists (h : host) (LASTFM_API_KEY : json)
    (artist_name : string) (limit : Z) : M json :=
  raw ← lastfm_get h LASTFM_API_KEY "artist.getSimilar"
          [("artist", JStr artist_name); ("limit", JNum limit)];
  lift (normalize_similar_artists raw).

(** ** Vocabulary of the further statements *)

(** How often [c] occurs in [s]. *)
Fixpoint occurrences (c : ascii) (s : string) : nat :=
  match s with
  | EmptyString => O
  | String c' s' => (if Ascii.eqb c' c then 1 else 0) + occurrences c s'
  end.

Definition is_dict (v : json) : bool :=
  match v with JDict _ => true | _ => false end.

(** [a.get("name")] of a dict, [None] for anything else. *)
Definition name_of (v : json) : json :=
  match v with
  | JDict a => default JNull (assoc "name" a)
  | _ => JNull
  end.

(** [d.get(k)] of the entries of a dict. *)
Definition field_or_none (k : string) (d : list (string * json)) : json :=
  default JNull (assoc k d).

(** [now + data["expires_in"]] *)
Definition expiry_of (data : json) (now : Z) : res Z :=
  v ← subscript data "expires_in"; add_seconds now v.

(** The world after a refresh that stored [tok] and then raised before
    the expiry was assigned. *)
Definition half_refreshed (h : host) (tok : json) (dt : Z)
    (rest : list (Z * res response)) (w : world) : world :=
  {| access_token := tok; expires_at := expires_at w;
     clock := (clock w + dt)%Z; upstream := rest;
     sent := sent w ++ [token_request h] |}.

(** A host whose decoder reads every body as [v]. *)
Definition host_of (v : json) : host :=
  {| json_loads := fun _ => Some v; CLIENT_ID := JStr "id";
     CLIENT_SECRET := JStr "secret"; REFRESH_TOKEN := JStr "refresh" |}.

(** What a wrapper makes of a reply that is not cut short. *)
Definition classify (h : host) (resp : response) : res json :=
  raise_for_status resp;; resp_json h resp.

(** The first and the last character of a string. *)
Definition first_char (s : string) : option ascii :=
  match s with
  | EmptyString => None
  | String c _ => Some c
  end.

Fixpoint last_char (s : string) : option ascii :=
  match s with
  | EmptyString => None
  | String c s' =>
      match s' with
      | EmptyString => Some c
      | _ => last_char s'
      end
  end.

(** Neither the first nor the last character is white space. *)
Definition no_space_at_ends (s : string) : Prop :=
  (∀ c, first_char s = Some c → isspace c = false)
  ∧ (∀ c, last_char s = Some c → isspace c = false).

(** The [artists] entry [search_spotify] computes for a record. *)
Definition guarded_artists (d : list (string * json)) : res json :=
  if truthy (field_or_none "artists" d)
  then artist_names (default (JList []) (assoc "artists" d))
  else Return JNull.

(** The record [current_user_top_tracks] makes of a track with the
    entries [d] at rank [rank], given its cleaned artists and album. *)
Definition ranked_record (rank : Z) (d : list (string * json))
    (artists album : json) : json :=
  JDict [("rank", JNum rank); ("id", field_or_none "id" d);
         ("name", field_or_none "name" d); ("uri", field_or_none "uri" d);
         ("artists", artists); ("album", album)].

(** * Properties *)

(** ** Running the monad *)

Lemma bind_run {A B : Type} (m : M A) (f : A → M B) (w : world) :
  (m ≫= f) w =
  match m w with
  | (Return a, w') => f a w'
  | (Raise e, w') => (Raise e, w')
  end.
Proof. reflexivity. Qed.

Lemma cached_token_valid_run (w : world) :
  cached_token_valid w = (Return (token_fresh w), w).
Proof.
  unfold cached_token_valid, token_fresh. rewrite bind_run. cbn.
  destruct (truthy (access_token w)); reflexivity.
Qed.

Lemma send_run (rq : request) (w : world) :
  send rq w =
  match upstream w with
  | [] =>
      (Raise TransportError,
       {| access_token := access_token w; expires_at := expires_at w;
          clock := clock w; upstream := []; sent := sent w ++ [rq] |})
  | (dt, o) :: rest =>
      (o, {| access_token := access_token w; expires_at := expires_at w;
             clock := (clock w + dt)%Z; upstream := rest;
             sent := sent w ++ [rq] |})
  end.
Proof.
  unfold send, issue, receive, mbind, M_bind. cbn.
  destruct (upstream w) as [|[dt o] rest]; reflexivity.
Qed.

Lemma finish_refresh_run (h : host) (resp : response) (w : world) :
  finish_refresh h resp w =
  if is_success resp then
    match resp_json h resp with
    | Raise e => (Raise e, w)
    | Return data =>
        match subscript data "access_token" with
        | Raise e => (Raise e, w)
        | Return tok =>
            let w1 := {| access_token := tok; expires_at := expires_at w;
                         clock := clock w; upstream := upstream w;
                         sent := sent w |} in
            match subscript data "expires_in" with
            | Raise e => (Raise e, w1)
            | Return v =>
                match add_seconds (clock w) v with
                | Raise e => (Raise e, w1)
                | Return exp =>
                    (Return tok,
                     {| access_token := tok; expires_at := exp;
                        clock := clock w; upstream := upstream w;
                        sent := sent w |})
                end
            end
        end
    end
  else (Raise (HTTPStatusError (status_code resp)), w).
Proof.
  unfold finish_refresh, raise_for_status, lift, set_access_token, time_time,
    set_expires_at, read_access_token, mbind, M_bind.
  destruct (is_success resp); [|reflexivity].
  destruct (resp_json h resp) as [data|]; [|reflexivity].
  destruct (subscript data "access_token") as [tok|]; [|reflexivity].
  cbn. destruct (subscript data "expires_in") as [v|]; [|reflexivity].
  destruct (add_seconds (clock w) v); reflexivity.
Qed.

Lemma get_access_token_run (h : host) (w : world) :
  get_access_token h w =
  if token_fresh w then (Return (access_token w), w)
  else (resp ← send (token_request h); finish_refresh h resp) w.
Proof.
  unfold get_access_token. rewrite bind_run, cached_token_valid_run.
  destruct (token_fresh w); reflexivity.
Qed.

(** A call that finds the cache fresh leaves the world alone. *)
Lemma get_access_token_hit (h : host) (w : world) :
  token_fresh w = true → get_access_token h w = (Return (access_token w), w).
Proof. intros Hf. rewrite get_access_token_run, Hf. reflexivity. Qed.

(** [finish_refresh] touches the two globals only. *)
Lemma finish_refresh_frame (h : host) (resp : response) (w : world) :
  clock (finish_refresh h resp w).2 = clock w
  ∧ upstream (finish_refresh h resp w).2 = upstream w
  ∧ sent (finish_refresh h resp w).2 = sent w.
Proof.
  rewrite finish_refresh_run.
  repeat match goal with
         | |- context [match ?x with _ => _ end] => destruct x
         end; cbn; auto.
Qed.

(** A call that finds the cache stale sends the token request, once. *)
Lemma get_access_token_miss_sent (h : host) (w : world) :
  token_fresh w = false →
  sent (get_access_token h w).2 = sent w ++ [token_request h].
Proof.
  intros Hf. rewrite get_access_token_run, Hf, bind_run, send_run.
  destruct (upstream w) as [|[dt [resp|e]] rest]; try reflexivity.
  destruct (finish_refresh_frame h resp
    {| access_token := access_token w; expires_at := expires_at w;
       clock := (clock w + dt)%Z; upstream := rest;
       sent := sent w ++ [token_request h] |}) as (_ & _ & Hs).
  exact Hs.
Qed.

Lemma get_access_token_miss_ok (h : host) (w : world) (dt e : Z)
    (resp : response) (rest : list (Z * res response)) (data tok : json) :
  token_fresh w = false →
  upstream w = (dt, Return resp) :: rest →
  is_success resp = true →
  resp_json h resp = Return data →
  subscript data "access_token" = Return tok →
  subscript data "expires_in" = Return (JNum e) →
  fits_float e = true →
  get_access_token h w = (Return tok, refreshed h tok dt e rest w).
Proof.
  intros Hf Hu Hs Hj Ht He Hfit.
  rewrite get_access_token_run, Hf, bind_run, send_run, Hu.
  rewrite finish_refresh_run, Hs, Hj, Ht. cbn [add_seconds]. rewrite He.
  cbn [add_seconds clock]. rewrite Hfit. reflexivity.
Qed.

(** ** The credential store *)

(** C1, as the code has it: the test is against the literal expiry, with no
    margin.  A cached token (a non empty one) read before [expires_at] is
    returned as it is and nothing is sent; in every other case the token
    request is sent exactly once, and when the reply is a success carrying
    [access_token] and an integer [expires_in] that fits a float, that
    token is stored with expiry [now + expires_in] and returned. *)
Theorem get_access_token_literal_expiry (h : host) (w : world) :
  (truthy (access_token w) = true ∧ (clock w < expires_at w)%Z →
     get_access_token h w = (Return (access_token w), w))
  ∧ (¬ (truthy (access_token w) = true ∧ (clock w < expires_at w)%Z) →
     sent (get_access_token h w).2 = sent w ++ [token_request h]
     ∧ ∀ dt e resp rest data tok,
         upstream w = (dt, Return resp) :: rest →
         is_success resp = true →
         resp_json h resp = Return data →
         subscript data "access_token" = Return tok →
         subscript data "expires_in" = Return (JNum e) →
         fits_float e = true →
         get_access_token h w = (Return tok, refreshed h tok dt e rest w)).
Proof.
  split.
  - intros [Ht Hc]. apply get_access_token_hit. unfold token_fresh.
    rewrite Ht. apply Z.ltb_lt in Hc. rewrite Hc. reflexivity.
  - intros Hn.
    assert (Hf : token_fresh w = false).
    { unfold token_fresh. destruct (truthy (access_token w)); [|reflexivity].
      cbn. apply Z.ltb_ge. destruct (Z.lt_ge_cases (clock w) (expires_at w)); [|assumption].
      exfalso. apply Hn. split; [reflexivity | assumption]. }
    split; [apply get_access_token_miss_sent; exact Hf|].
    intros. eapply get_access_token_miss_ok; eassumption.
Qed.

Lemma get_access_token_literal_expiry_witness :
  get_access_token demo_host (warm 1999 [ok_reply "body A"])
    = (Return (JStr "tok"), warm 1999 [ok_reply "body A"])
  ∧ get_access_token demo_host (warm 2000 [ok_reply "body A"])
    = (Return (JStr "tokA"),
       refreshed demo_host (JStr "tokA") 1 3600 [] (warm 2000 [ok_reply "body A"])).
Proof.
  split.
  - apply (proj1 (get_access_token_literal_expiry demo_host
                    (warm 1999 [ok_reply "body A"]))).
    split; [reflexivity | cbn; lia].
  - apply (proj2 (get_access_token_literal_expiry demo_host
                    (warm 2000 [ok_reply "body A"]))) with
      (resp := {| status_code := 200; content := "body A" |}) (data := reply_A).
    + intros [_ Hc]. cbn in Hc. lia.
    + reflexivity.
    + reflexivity.
    + reflexivity.
    + reflexivity.
    + reflexivity.
    + reflexivity.
Defined.

(** C1 as written fails on the code for every positive margin: one tick
    before the expiry the cached token is still handed out and no exchange
    is made. *)
Lemma no_margin_before_expiry :
  ¬ ∃ margin : Z, (0 < margin)%Z ∧ refreshes_with_margin margin.
Proof.
  intros (m & Hm & Hc).
  destruct (Hc demo_host (warm 1999 [ok_reply "body A"])) as [_ Hstale].
  destruct Hstale as [Hex _].
  - intros [_ Hlt]. cbn in Hlt. lia.
  - vm_compute in Hex. discriminate Hex.
Qed.

(** C5: when the token endpoint answers with a status outside 2xx, the two
    globals keep the values they had, and a call that had to refresh raises
    the status error instead of returning anything. *)
Theorem failed_refresh_keeps_cache (h : host) (w : world) (dt : Z)
    (resp : response) (rest : list (Z * res response)) :
  upstream w = (dt, Return resp) :: rest →
  is_success resp = false →
  access_token (get_access_token h w).2 = access_token w
  ∧ expires_at (get_access_token h w).2 = expires_at w
  ∧ (token_fresh w = false →
     (get_access_token h w).1 = Raise (HTTPStatusError (status_code resp))).
Proof.
  intros Hu Hs. rewrite get_access_token_run.
  destruct (token_fresh w).
  - cbn. split; [reflexivity | split; [reflexivity | discriminate]].
  - rewrite bind_run, send_run, Hu, finish_refresh_run, Hs. cbn. auto.
Qed.

Lemma failed_refresh_keeps_cache_witness :
  access_token (get_access_token demo_host (warm 2500 [reply_with 400 "body A"])).2
    = JStr "tok"
  ∧ expires_at (get_access_token demo_host (warm 2500 [reply_with 400 "body A"])).2
    = 2000%Z
  ∧ (token_fresh (warm 2500 [reply_with 400 "body A"]) = false →
     (get_access_token demo_host (warm 2500 [reply_with 400 "body A"])).1
       = Raise (HTTPStatusError 400)).
Proof.
  apply (failed_refresh_keeps_cache demo_host
           (warm 2500 [reply_with 400 "body A"]) 1
           {| status_code := 400; content := "body A" |} []).
  - reflexivity.
  - reflexivity.
Defined.

(** ** The request wrappers *)

(** What a wrapper makes of the reply, by verb. *)
Lemma spotify_get_run (h : host) (path : string) (params : json) (w : world) :
  spotify_get h path params w =
  match get_access_token h w with
  | (Raise e, w1) => (Raise e, w1)
  | (Return token, w1) =>
      match send (api_request GET path (Query params) token) w1 with
      | (Raise e, w2) => (Raise e, w2)
      | (Return resp, w2) =>
          (if is_success resp then resp_json h resp
           else Raise (HTTPStatusError (status_code resp)), w2)
      end
  end.
Proof.
  unfold spotify_get. rewrite bind_run.
  destruct (get_access_token h w) as [[token|e] w1]; [|reflexivity].
  rewrite bind_run.
  destruct (send _ w1) as [[resp|e] w2]; [|reflexivity].
  unfold lift, raise_for_status, mbind, M_bind.
  destruct (is_success resp); reflexivity.
Qed.

Lemma spotify_post_run (h : host) (path : string) (params : json) (w : world) :
  spotify_post h path params w =
  match get_access_token h w with
  | (Raise e, w1) => (Raise e, w1)
  | (Return token, w1) =>
      match send (api_request POST path (JsonBody params) token) w1 with
      | (Raise e, w2) => (Raise e, w2)
      | (Return resp, w2) =>
          (if is_success resp then resp_json h resp
           else Raise (HTTPStatusError (status_code resp)), w2)
      end
  end.
Proof.
  unfold spotify_post. rewrite bind_run.
  destruct (get_access_token h w) as [[token|e] w1]; [|reflexivity].
  rewrite bind_run.
  destruct (send _ w1) as [[resp|e] w2]; [|reflexivity].
  unfold lift, raise_for_status, mbind, M_bind.
  destruct (is_success resp); reflexivity.
Qed.

Lemma spotify_put_run (h : host) (path : string) (params : json) (w : world) :
  spotify_put h path params w =
  match get_access_token h w with
  | (Raise e, w1) => (Raise e, w1)
  | (Return token, w1) =>
      match send (api_request PUT path (JsonBody params) token) w1 with
      | (Raise e, w2) => (Raise e, w2)
      | (Return resp, w2) =>
          (if (status_code resp =? 204)%Z || (status_code resp =? 200)%Z
              || (content resp =? "")
           then Return status_ok
           else if is_success resp then resp_json h resp
                else Raise (HTTPStatusError (status_code resp)), w2)
      end
  end.
Proof.
  unfold spotify_put. rewrite bind_run.
  destruct (get_access_token h w) as [[token|e] w1]; [|reflexivity].
  rewrite bind_run.
  destruct (send _ w1) as [[resp|e] w2]; [|reflexivity].
  destruct ((status_code resp =? 204)%Z || (status_code resp =? 200)%Z
            || (content resp =? "")); [reflexivity|].
  unfold lift, raise_for_status, mbind, M_bind.
  destruct (is_success resp); reflexivity.
Qed.

Lemma send_reply (rq : request) (w : world) (dt : Z) (o : res response)
    (rest : list (Z * res response)) :
  upstream w = (dt, o) :: rest → (send rq w).1 = o.
Proof. intros Hu. rewrite send_run, Hu. reflexivity. Qed.

Lemma resp_json_empty (h : host) (resp : response) :
  content resp = "" → resp_json h resp = Raise JSONDecodeError.
Proof. unfold resp_json. intros ->. reflexivity. Qed.

(** GET and POST raise the status error on every reply outside 2xx, and so
    does PUT as long as the reply has a body. *)
Lemma wrappers_raise_status (h : host) (path : string) (params : json)
    (w w1 : world) (token : json) (dt : Z) (resp : response)
    (rest : list (Z * res response)) :
  get_access_token h w = (Return token, w1) →
  upstream w1 = (dt, Return resp) :: rest →
  is_success resp = false →
  (spotify_get h path params w).1 = Raise (HTTPStatusError (status_code resp))
  ∧ (spotify_post h path params w).1 = Raise (HTTPStatusError (status_code resp))
  ∧ (content resp ≠ "" →
     (spotify_put h path params w).1 = Raise (HTTPStatusError (status_code resp))).
Proof.
  intros Hg Hu Hs.
  rewrite spotify_get_run, spotify_post_run, spotify_put_run, Hg.
  rewrite !send_run, Hu. cbn. rewrite Hs.
  split; [reflexivity | split; [reflexivity|]].
  intros Hc.
  assert (Hne : (content resp =? "") = false) by (apply String.eqb_neq; exact Hc).
  unfold is_success in Hs.
  destruct (status_code resp =? 204)%Z eqn:E1; [apply Z.eqb_eq in E1; lia|].
  destruct (status_code resp =? 200)%Z eqn:E2; [apply Z.eqb_eq in E2; lia|].
  rewrite Hne. reflexivity.
Qed.

(** PUT on a reply without a body answers [{"status": "ok"}] whatever the
    status is. *)
Lemma spotify_put_empty_body (h : host) (path : string) (params : json)
    (w w1 : world) (token : json) (dt : Z) (resp : response)
    (rest : list (Z * res response)) :
  get_access_token h w = (Return token, w1) →
  upstream w1 = (dt, Return resp) :: rest →
  content resp = "" →
  (spotify_put h path params w).1 = Return status_ok.
Proof.
  intros Hg Hu Hc. rewrite spotify_put_run, Hg, send_run, Hu. cbn.
  rewrite Hc, orb_true_r. reflexivity.
Qed.

(** C3 at a reply the code can receive: the player endpoint answers 404
    with an empty body, and [spotify_put] returns the success marker where
    GET and POST raise the status error. *)
Theorem spotify_put_404_empty_body :
  is_success {| status_code := 404; content := "" |} = false
  ∧ (spotify_put demo_host "/me/player/play" JNull
       (warm 1000 [reply_with 404 ""])).1 = Return status_ok
  ∧ (spotify_get demo_host "/me/player/play" JNull
       (warm 1000 [reply_with 404 ""])).1 = Raise (HTTPStatusError 404)
  ∧ (spotify_post demo_host "/me/player/play" JNull
       (warm 1000 [reply_with 404 ""])).1 = Raise (HTTPStatusError 404).
Proof. repeat split. Qed.



(** ** Shaping the payloads *)

Lemma search_spotify_run (h : host) (query search_type : string) (limit : Z)
    (w w' : world) (raw : json) :
  spotify_get h "/search"
    (JDict [("q", JStr query); ("type", JStr search_type); ("limit", JNum limit)]) w
    = (Return raw, w') →
  search_spotify h query search_type limit w
    = (normalize_search search_type raw, w').
Proof.
  intros Hg. unfold search_spotify. rewrite bind_run, Hg. reflexivity.
Qed.

(** C6: for the type [track] the items are read under the key [tracks],
    and the sample payload is reshaped into the documented record, the
    artists flattened to their names; the same through the whole tool. *)
Theorem search_track_sample :
  (∀ (search_type : string) (items : json),
     search_items search_type
       (JDict [((search_type ++ "s")%string, JDict [("items", items)])]) = items)
  ∧ search_items "track" search_payload = JList [track_1]
  ∧ normalize_search "track" search_payload
    = Return (JDict [("type", JStr "track");
                     ("items",
                      JList [JDict [("id", JStr "1"); ("name", JStr "Song");
                                    ("uri", JStr "spotify:track:1");
                                    ("artists", JList [JStr "A"]);
                                    ("album", JStr "Alb")]])])
  ∧ (search_spotify demo_host "Song" "track" 5
       (warm 1000 [ok_reply "search body"])).1
    = normalize_search "track" search_payload.
Proof.
  split; [|repeat split].
  intros st items. unfold search_items. cbn.
  rewrite String.eqb_refl. reflexivity.
Qed.

(** A subscript raises exactly on a value that is no dict or has no such
    key. *)
Lemma subscript_raises (v : json) (k : string) :
  (∃ e, subscript v k = Raise e) ↔ (∀ d, v = JDict d → assoc k d = None).
Proof.
  split.
  - intros [e He] d ->. cbn in He. destruct (assoc k d); [discriminate | reflexivity].
  - intros H. destruct v; cbn; eauto.
    rewrite (H d eq_refl). eauto.
Qed.

Lemma search_items_missing (search_type : string) (raw : json) :
  container_missing search_type raw → search_items search_type raw = JList [].
Proof.
  unfold search_items. intros [[e He] | (c & e & Hc & He)].
  - rewrite He. reflexivity.
  - rewrite Hc. cbn. rewrite He. reflexivity.
Qed.

(** C7: when the container named after the search type, or its [items]
    member, is missing from the payload (whatever the payload is), the
    search returns [{"type": search_type, "items": []}] and raises
    nothing; so does the tool on a reply that decodes to such a payload. *)
Theorem search_missing_container_empty (h : host) (query search_type : string)
    (limit : Z) (raw : json) (w w' : world) :
  container_missing search_type raw →
  normalize_search search_type raw = Return (no_results search_type)
  ∧ (spotify_get h "/search"
       (JDict [("q", JStr query); ("type", JStr search_type);
               ("limit", JNum limit)]) w = (Return raw, w') →
     search_spotify h query search_type limit w
       = (Return (no_results search_type), w')).
Proof.
  intros Hm.
  assert (Hn : normalize_search search_type raw = Return (no_results search_type)).
  { unfold normalize_search. rewrite (search_items_missing _ _ Hm). reflexivity. }
  split; [exact Hn|].
  intros Hg. rewrite (search_spotify_run _ _ _ _ _ _ _ Hg), Hn. reflexivity.
Qed.

Lemma search_missing_container_empty_witness :
  normalize_search "track" (JDict [("albums", JDict [("items", JList [track_1])])])
    = Return (no_results "track")
  ∧ normalize_search "track" (JDict [("tracks", JDict [("total", JNum 0)])])
    = Return (no_results "track")
  ∧ normalize_search "track" (JList [JNum 1])
    = Return (no_results "track").
Proof.
  split; [|split].
  - apply (search_missing_container_empty demo_host "q" "track" 5
             (JDict [("albums", JDict [("items", JList [track_1])])])
             (cold []) (cold [])).
    left. exists (KeyError "tracks"). reflexivity.
  - apply (search_missing_container_empty demo_host "q" "track" 5
             (JDict [("tracks", JDict [("total", JNum 0)])])
             (cold []) (cold [])).
    right. exists (JDict [("total", JNum 0)]), (KeyError "items").
    split; reflexivity.
  - apply (search_missing_container_empty demo_host "q" "track" 5
             (JList [JNum 1]) (cold []) (cold [])).
    left. exists TypeError. reflexivity.
Defined.

(** The guard covers the lookup of the container only: a container that
    is there and holds something else than records still raises. *)
Remark search_null_item_raises :
  normalize_search "track" (JDict [("tracks", JDict [("items", JList [JNull])])])
    = Raise AttributeError
  ∧ normalize_search "track" (JDict [("tracks", JDict [("items", JNull)])])
    = Raise TypeError.
Proof. split; reflexivity. Qed.

(** [search_spotify] fills in [None] for what a record does not have. *)
Lemma clean_search_item_defaults (d : list (string * json)) :
  assoc "artists" d = None →
  assoc "album" d = None →
  clean_search_item (JDict d)
  = Return (JDict [("id", default JNull (assoc "id" d));
                   ("name", default JNull (assoc "name" d));
                   ("uri", default JNull (assoc "uri" d));
                   ("artists", JNull); ("album", JNull)]).
Proof.
  intros Ha Hb. unfold clean_search_item. cbn. rewrite Ha, Hb. reflexivity.
Qed.

(** C9 at a payload the code can receive: a playlist that holds a podcast
    episode, a record with [id], [name] and [uri] and without [artists]
    and [album].  [get_playlist_items] raises [KeyError] where
    [search_spotify] returns the record with [None] in the two places. *)
Theorem playlist_items_episode_raises :
  normalize_playlist_items 10 0 playlist_payload = Raise (KeyError "artists")
  ∧ (get_playlist_items demo_host "p1" 10 0
       (warm 1000 [ok_reply "playlist body"])).1 = Raise (KeyError "artists")
  ∧ clean_search_item episode_1
    = Return (JDict [("id", JStr "e1"); ("name", JStr "Episode");
                     ("uri", JStr "spotify:episode:e1");
                     ("artists", JNull); ("album", JNull)]).
Proof. repeat split. Qed.

(** ** Splitting and stripping *)

Lemma append_empty (s : string) : ("" ++ s)%string = s.
Proof. reflexivity. Qed.

Lemma append_cons (c : ascii) (a b : string) :
  (String c a ++ b)%string = String c (a ++ b)%string.
Proof. reflexivity. Qed.

Ltac string_step :=
  rewrite ?append_empty, ?append_cons;
  cbn [split contains blank lstrip rstrip join String.length].

Lemma split_not_nil (sep : ascii) (s : string) : split sep s ≠ [].
Proof.
  destruct s as [|c s]; string_step; [discriminate|].
  destruct (Ascii.eqb c sep); [discriminate|].
  destruct (split sep s); discriminate.
Qed.

Lemma split_clean (sep : ascii) (s : string) :
  contains sep s = false → split sep s = [s].
Proof.
  induction s as [|c s IH]; string_step; [reflexivity|].
  intros H. apply orb_false_elim in H as [Hc Hs].
  rewrite Hc, (IH Hs). reflexivity.
Qed.

Lemma split_app (sep : ascii) (a b : string) :
  contains sep a = false →
  split sep (a ++ String sep b)%string = a :: split sep b.
Proof.
  induction a as [|c a IH]; string_step.
  - intros _. rewrite Ascii.eqb_refl. reflexivity.
  - intros H. apply orb_false_elim in H as [Hc Ha].
    rewrite Hc, (IH Ha). reflexivity.
Qed.

Lemma contains_app (c : ascii) (a b : string) :
  contains c (a ++ b)%string = contains c a || contains c b.
Proof.
  induction a as [|x a IH]; string_step; [reflexivity|].
  rewrite IH, orb_assoc. reflexivity.
Qed.

Lemma split_join (ws : list string) :
  ws ≠ [] →
  Forall (fun w => contains comma w = false) ws →
  split comma (join ws) = ws.
Proof.
  induction ws as [|w ws IH]; [congruence|].
  intros _ Hall. inversion Hall as [|? ? Hw Hws]; subst.
  destruct ws as [|w' ws].
  - string_step. apply split_clean. exact Hw.
  - change (join (w :: w' :: ws)) with (w ++ String comma (join (w' :: ws)))%string.
    rewrite (split_app _ _ _ Hw), IH; [reflexivity | discriminate | exact Hws].
Qed.

Lemma join_split (s : string) : join (split comma s) = s.
Proof.
  induction s as [|c s IH]; string_step; [reflexivity|].
  pose proof (split_not_nil comma s) as Hne.
  destruct (Ascii.eqb_spec c comma) as [->|Hc].
  - destruct (split comma s) as [|w ws]; [congruence|].
    change (join ("" :: w :: ws)) with ("" ++ String comma (join (w :: ws)))%string.
    rewrite IH. reflexivity.
  - destruct (split comma s) as [|w ws]; [congruence|].
    destruct ws as [|w' ws].
    + cbn [split String.append contains blank lstrip rstrip join String.length] in *. rewrite IH. reflexivity.
    + change (join (String c w :: w' :: ws))
        with (String c (w ++ String comma (join (w' :: ws)))%string).
      change (join (w :: w' :: ws))
        with (w ++ String comma (join (w' :: ws)))%string in IH.
      rewrite IH. reflexivity.
Qed.

Lemma split_pieces_clean (s : string) :
  Forall (fun w => contains comma w = false) (split comma s).
Proof.
  induction s as [|c s IH]; string_step.
  - constructor; [reflexivity | constructor].
  - destruct (Ascii.eqb c comma) eqn:Hc.
    + constructor; [reflexivity | exact IH].
    + destruct (split comma s) as [|w ws]; [repeat constructor; string_step; rewrite Hc; reflexivity|].
      inversion IH; subst. constructor; [|assumption].
      string_step. rewrite Hc. assumption.
Qed.

Lemma blank_no_comma (s : string) : blank s = true → contains comma s = false.
Proof.
  induction s as [|c s IH]; string_step; [reflexivity|].
  intros H. apply andb_prop in H as [Hc Hs]. rewrite (IH Hs), orb_false_r.
  destruct (Ascii.eqb_spec c comma) as [->|]; [discriminate Hc | reflexivity].
Qed.

Lemma lstrip_blank_app (l s : string) :
  blank l = true → lstrip (l ++ s)%string = lstrip s.
Proof.
  induction l as [|c l IH]; string_step; [reflexivity|].
  intros H. apply andb_prop in H as [Hc Hl]. rewrite Hc. exact (IH Hl).
Qed.

Lemma lstrip_blank (s : string) : blank s = true → lstrip s = "".
Proof.
  induction s as [|c s IH]; string_step; [reflexivity|].
  intros H. apply andb_prop in H as [Hc Hs]. rewrite Hc. exact (IH Hs).
Qed.

Lemma rstrip_blank (s : string) : blank s = true → rstrip s = "".
Proof.
  induction s as [|c s IH]; string_step; [reflexivity|].
  intros H. apply andb_prop in H as [Hc Hs]. rewrite (IH Hs), Hc. reflexivity.
Qed.

Lemma rstrip_app_blank (s r : string) :
  blank r = true → rstrip (s ++ r)%string = rstrip s.
Proof.
  intros Hr. induction s as [|c s IH]; string_step.
  - apply rstrip_blank. exact Hr.
  - rewrite IH. reflexivity.
Qed.

Lemma lstrip_length (s : string) :
  (String.length (lstrip s) <= String.length s)%nat.
Proof.
  induction s as [|c s IH]; string_step; [lia|].
  destruct (isspace c); string_step; lia.
Qed.

(** A string fixed by [lstrip] is empty or starts with a character that
    is no white space. *)
Lemma lstrip_fixed_head (c : ascii) (s : string) :
  lstrip (String c s) = String c s → isspace c = false.
Proof.
  string_step. destruct (isspace c); [|reflexivity].
  intros H. pose proof (lstrip_length s) as Hl. rewrite H in Hl. cbn [String.length] in Hl. lia.
Qed.

Lemma strip_written (f : field) : well_formed f → strip (written f) = uri f.
Proof.
  intros (Hl & Hr & [Hlu Hru] & _). unfold strip, written.
  rewrite (lstrip_blank_app _ _ Hl).
  destruct (uri f) as [|c u] eqn:Hu.
  - string_step. rewrite (lstrip_blank _ Hr). reflexivity.
  - rewrite append_cons. cbn [lstrip]. rewrite (lstrip_fixed_head c u Hlu).
    rewrite <- append_cons.
    rewrite (rstrip_app_blank _ _ Hr). exact Hru.
Qed.

Lemma written_no_comma (f : field) :
  well_formed f → contains comma (written f) = false.
Proof.
  intros (Hl & Hr & _ & Hu). unfold written.
  rewrite !contains_app, Hu, (blank_no_comma _ Hl), (blank_no_comma _ Hr).
  reflexivity.
Qed.

(** What the comprehension computes, in terms of what the caller wrote. *)
Lemma split_uris_written (fs : list field) :
  fs ≠ [] → Forall well_formed fs →
  split_uris (join (map written fs)) = map uri fs.
Proof.
  intros Hne Hwf. unfold split_uris.
  rewrite split_join.
  - rewrite map_map. apply map_ext_in. intros f Hf.
    apply strip_written. rewrite Forall_forall in Hwf. apply Hwf.
    apply list_elem_of_In. exact Hf.
  - destruct fs; [congruence | discriminate].
  - rewrite Forall_map. eapply Forall_impl; [exact Hwf|].
    intros f Hf. apply written_no_comma. exact Hf.
Qed.

Lemma leading_lstrip (s : string) :
  blank (leading s) = true ∧ (leading s ++ lstrip s)%string = s.
Proof.
  induction s as [|c s [IHb IHa]]; cbn [leading lstrip]; [split; reflexivity|].
  destruct (isspace c) eqn:Hc.
  - rewrite append_cons, IHa. cbn [blank]. rewrite Hc, IHb. split; reflexivity.
  - split; reflexivity.
Qed.

Lemma rstrip_trailing (s : string) :
  blank (trailing s) = true ∧ (rstrip s ++ trailing s)%string = s.
Proof.
  induction s as [|c s [IHb IHa]]; [split; reflexivity|].
  cbn [trailing]. cbn [rstrip].
  destruct (rstrip s) as [|d r] eqn:Hr.
  - rewrite append_empty in IHa.
    destruct (isspace c) eqn:Hc.
    + rewrite IHa in IHb. cbn [blank]. rewrite Hc, IHb. split; reflexivity.
    + split; [exact IHb|]. rewrite append_cons, append_empty, IHa. reflexivity.
  - rewrite append_cons, IHa. split; [exact IHb | reflexivity].
Qed.

Lemma lstrip_idem (s : string) : lstrip (lstrip s) = lstrip s.
Proof.
  induction s as [|c s IH]; cbn [lstrip]; [reflexivity|].
  destruct (isspace c) eqn:Hc; [exact IH|].
  cbn [lstrip]. rewrite Hc. reflexivity.
Qed.

Lemma rstrip_idem (s : string) : rstrip (rstrip s) = rstrip s.
Proof.
  induction s as [|c s IH]; cbn [rstrip]; [reflexivity|].
  destruct (rstrip s) as [|d r] eqn:Hr.
  - destruct (isspace c) eqn:Hc; cbn [rstrip]; [reflexivity|].
    rewrite Hc. reflexivity.
  - cbn [rstrip] in IH |- *. rewrite IH. reflexivity.
Qed.

Lemma lstrip_rstrip (s : string) :
  lstrip s = s → lstrip (rstrip s) = rstrip s.
Proof.
  destruct s as [|c s]; [reflexivity|].
  intros H. pose proof (lstrip_fixed_head c s H) as Hc.
  cbn [rstrip]. destruct (rstrip s); [rewrite Hc|]; cbn [lstrip]; rewrite Hc; reflexivity.
Qed.

Lemma strip_trimmed (p : string) : trimmed (strip p).
Proof.
  unfold trimmed, strip. split.
  - apply lstrip_rstrip, lstrip_idem.
  - apply rstrip_idem.
Qed.

Lemma written_parse_field (p : string) : written (parse_field p) = p.
Proof.
  unfold written, parse_field, strip. cbn [lead uri trail].
  rewrite (proj2 (rstrip_trailing (lstrip p))).
  apply leading_lstrip.
Qed.

Lemma parse_field_well_formed (p : string) :
  contains comma p = false → well_formed (parse_field p).
Proof.
  intros Hp. unfold well_formed, parse_field. cbn [lead uri trail].
  split; [apply leading_lstrip|].
  split; [apply rstrip_trailing|].
  split; [apply strip_trimmed|].
  rewrite <- (written_parse_field p) in Hp. unfold written in Hp.
  rewrite !contains_app in Hp. cbn [lead uri trail parse_field] in Hp.
  destruct (contains comma (strip p)); [|reflexivity].
  rewrite orb_true_r in Hp. discriminate Hp.
Qed.

(** Every string is what a caller wrote for some list of fields. *)
Lemma every_string_written (s : string) :
  let fs := map parse_field (split comma s) in
  fs ≠ [] ∧ Forall well_formed fs ∧ join (map written fs) = s.
Proof.
  cbn zeta. split; [|split].
  - pose proof (split_not_nil comma s). destruct (split comma s); [congruence | discriminate].
  - rewrite Forall_map. eapply Forall_impl; [apply split_pieces_clean|].
    intros p Hp. apply parse_field_well_formed. exact Hp.
  - rewrite map_map.
    rewrite (map_ext _ (fun p => p) written_parse_field), map_id.
    apply join_split.
Qed.

(** ** Tools that build a request body *)

(** The requests of a POST: those of the token, and then, when a token was
    obtained, the one request to the API with [params] as its JSON body. *)
Lemma spotify_post_sent (h : host) (path : string) (params : json) (w : world) :
  sent (spotify_post h path params w).2 =
  match get_access_token h w with
  | (Return token, w1) =>
      sent w1 ++ [api_request POST path (JsonBody params) token]
  | (Raise _, w1) => sent w1
  end.
Proof.
  rewrite spotify_post_run.
  destruct (get_access_token h w) as [[token|e] w1]; [|reflexivity].
  rewrite send_run. destruct (upstream w1) as [|[dt [resp|e]] rest]; reflexivity.
Qed.

Lemma spotify_put_sent (h : host) (path : string) (params : json) (w : world) :
  sent (spotify_put h path params w).2 =
  match get_access_token h w with
  | (Return token, w1) =>
      sent w1 ++ [api_request PUT path (JsonBody params) token]
  | (Raise _, w1) => sent w1
  end.
Proof.
  rewrite spotify_put_run.
  destruct (get_access_token h w) as [[token|e] w1]; [|reflexivity].
  rewrite send_run. destruct (upstream w1) as [|[dt [resp|e]] rest]; reflexivity.
Qed.

(** C8: [add_to_playlist] cuts [track_uri] at its commas and strips each
    piece; for URIs written with white space around them and commas between
    them the list is exactly the URIs.  That list is the [uris] field of
    the body, and the body is what the POST carries. *)
Theorem add_to_playlist_splits (h : host) (playlist_id : string)
    (fs : list field) (w : world) :
  fs ≠ [] → Forall well_formed fs →
  add_to_playlist_body (join (map written fs))
    = JDict [("uris", uris_json (map uri fs))]
  ∧ sent (add_to_playlist h playlist_id (join (map written fs)) w).2
    = match get_access_token h w with
      | (Return token, w1) =>
          sent w1 ++ [api_request POST ("/playlists/" ++ playlist_id ++ "/tracks")
                        (JsonBody (JDict [("uris", uris_json (map uri fs))]))
                        token]
      | (Raise _, w1) => sent w1
      end.
Proof.
  intros Hne Hwf.
  assert (Hb : add_to_playlist_body (join (map written fs))
               = JDict [("uris", uris_json (map uri fs))]).
  { unfold add_to_playlist_body. rewrite (split_uris_written fs Hne Hwf). reflexivity. }
  split; [exact Hb|].
  unfold add_to_playlist. rewrite spotify_post_sent, Hb. reflexivity.
Qed.

Lemma add_to_playlist_splits_witness :
  add_to_playlist_body "uri1, uri2"
    = JDict [("uris", JList [JStr "uri1"; JStr "uri2"])]
  ∧ sent (add_to_playlist demo_host "p1" "uri1, uri2"
            (warm 1000 [ok_reply "body A"])).2
    = [api_request POST "/playlists/p1/tracks"
         (JsonBody (JDict [("uris", JList [JStr "uri1"; JStr "uri2"])]))
         (JStr "tok")].
Proof.
  apply (add_to_playlist_splits demo_host "p1"
           [ {| lead := ""; uri := "uri1"; trail := "" |};
             {| lead := " "; uri := "uri2"; trail := "" |} ]
           (warm 1000 [ok_reply "body A"])).
  - discriminate.
  - repeat constructor.
Defined.

(** C10: the [uris] field of the body of [start_playback] is [None] when
    [track_uris] is [None] or empty, and for any other string the list of
    its pieces between commas, each stripped: for URIs written with white
    space around them, exactly the URIs.  The body is what the PUT
    carries. *)
Theorem start_playback_uris (h : host) (context_uri : option string)
    (position_ms : option Z) (w : world) :
  body_field "uris" (start_playback_body context_uri None position_ms)
    = Return JNull
  ∧ body_field "uris" (start_playback_body context_uri (Some "") position_ms)
    = Return JNull
  ∧ (∀ s, s ≠ "" →
       body_field "uris" (start_playback_body context_uri (Some s) position_ms)
       = Return (uris_json (map strip (split comma s))))
  ∧ (∀ fs, Forall well_formed fs → join (map written fs) ≠ "" →
       body_field "uris"
         (start_playback_body context_uri (Some (join (map written fs)))
            position_ms)
       = Return (uris_json (map uri fs)))
  ∧ (∀ track_uris,
       sent (start_playback h context_uri track_uris position_ms w).2
       = match get_access_token h w with
         | (Return token, w1) =>
             sent w1 ++ [api_request PUT "/me/player/play"
                           (JsonBody (start_playback_body context_uri track_uris
                                        position_ms)) token]
         | (Raise _, w1) => sent w1
         end).
Proof.
  assert (Hs : ∀ s, s ≠ "" →
       body_field "uris" (start_playback_body context_uri (Some s) position_ms)
       = Return (uris_json (split_uris s))).
  { intros s Hne. unfold body_field, start_playback_body, playback_uris.
    cbn [truthy]. apply String.eqb_neq in Hne. rewrite Hne. reflexivity. }
  split; [reflexivity|]. split; [reflexivity|]. split; [exact Hs|]. split.
  - intros fs Hwf Hne. rewrite (Hs _ Hne).
    rewrite split_uris_written; [reflexivity | | exact Hwf].
    intros ->. apply Hne. reflexivity.
  - intros track_uris. unfold start_playback. apply spotify_put_sent.
Qed.

Lemma start_playback_uris_witness :
  body_field "uris" (start_playback_body None (Some "uri1, uri2 ,uri3") None)
    = Return (JList [JStr "uri1"; JStr "uri2"; JStr "uri3"]).
Proof.
  apply (proj1 (proj2 (proj2 (proj2
           (start_playback_uris demo_host None None (cold [])))))
           [ {| lead := ""; uri := "uri1"; trail := "" |};
             {| lead := " "; uri := "uri2"; trail := " " |};
             {| lead := ""; uri := "uri3"; trail := "" |} ]).
  - repeat constructor.
  - discriminate.
Defined.

(** ** Concurrent callers *)

Lemma start_call_run (h : host) (w : world) :
  start_call h w =
  if token_fresh w then (Return (Some (access_token w)), w)
  else (Return None, logged [token_request h] w).
Proof.
  unfold start_call. rewrite bind_run, cached_token_valid_run.
  destruct (token_fresh w); reflexivity.
Qed.

(** A call that runs without interleaving is its two halves back to
    back. *)
Lemma get_access_token_halves (h : host) (w : world) :
  get_access_token h w =
  match start_call h w with
  | (Return (Some tok), w1) => (Return tok, w1)
  | (Return None, w1) => resume_call h w1
  | (Raise e, w1) => (Raise e, w1)
  end.
Proof.
  rewrite get_access_token_run, start_call_run.
  destruct (token_fresh w); reflexivity.
Qed.

Lemma finish_refresh_result (h : host) (resp : response) (w : world) :
  (finish_refresh h resp w).1 = refresh_result h (Return resp).
Proof.
  rewrite finish_refresh_run. unfold refresh_result, raise_for_status.
  cbn [mbind res_bind].
  destruct (is_success resp); [|reflexivity]. cbn.
  destruct (resp_json h resp) as [data|]; [|reflexivity]. cbn.
  destruct (subscript data "access_token") as [tok|]; [|reflexivity]. cbn.
  destruct (subscript data "expires_in") as [v|]; [|reflexivity]. cbn.
  destruct v; try reflexivity. cbn. destruct (fits_float n); reflexivity.
Qed.

Lemma resume_call_spec (h : host) (w : world) :
  (resume_call h w).1 = refresh_result h (reply_outcome w 0)
  ∧ upstream (resume_call h w).2 = drop 1 (upstream w)
  ∧ sent (resume_call h w).2 = sent w.
Proof.
  unfold resume_call, reply_outcome. rewrite bind_run. unfold receive.
  destruct (upstream w) as [|[dt [resp|e]] rest] eqn:Hu; cbn.
  - rewrite Hu. auto.
  - match goal with |- context [finish_refresh h resp ?w1] =>
      destruct (finish_refresh_frame h resp w1) as (_ & Hup & Hs);
      pose proof (finish_refresh_result h resp w1) as Hr
    end.
    cbn in *. rewrite Hr, Hup, Hs, drop_0. auto.
  - rewrite drop_0. auto.
Qed.

Lemma logged_logged (a b : list request) (w : world) :
  logged b (logged a w) = logged (a ++ b) w.
Proof. unfold logged. cbn. rewrite app_assoc. reflexivity. Qed.

Lemma logged_nil (w : world) : logged [] w = w.
Proof. destruct w. unfold logged. cbn. rewrite app_nil_r. reflexivity. Qed.

Lemma run_app (h : host) (es1 es2 : list event) (s : sys) :
  run h (es1 ++ es2) s = run h es2 (run h es1 s).
Proof. unfold run. apply foldl_app. Qed.

(** After the first [k] of [n] callers ran up to their await on a stale
    cache, [k] token requests are on the wire and nothing else changed. *)
Lemma run_begins (h : host) (w : world) (n k : nat) :
  token_fresh w = false → (k ≤ n)%nat →
  run h (map Begin (seq 0 k)) (spawn n w)
  = {| shared := logged (replicate k (token_request h)) w;
       tasks := replicate k Awaiting ++ replicate (n - k) Ready |}.
Proof.
  intros Hf. induction k as [|k IH]; intros Hk.
  - cbn. rewrite logged_nil, Nat.sub_0_r. reflexivity.
  - rewrite seq_S, map_app, run_app, IH by lia. cbn [map run foldl step Nat.add tasks shared].
    assert (Hn : (n - k = S (n - S k))%nat) by lia.
    rewrite lookup_app_r by (rewrite length_replicate; lia).
    rewrite length_replicate, Nat.sub_diag, Hn. cbn [replicate lookup list_lookup].
    rewrite start_call_run.
    replace (token_fresh (logged (replicate k (token_request h)) w))
      with (token_fresh w) by reflexivity.
    rewrite Hf, logged_logged. cbn [started].
    f_equal.
    + f_equal. symmetry. apply (replicate_S_end k).
    + rewrite insert_app_r_alt by (rewrite length_replicate; lia).
      rewrite length_replicate, Nat.sub_diag. cbn [insert list_insert].
      change (Awaiting :: replicate k Awaiting) with (replicate (S k) Awaiting).
      rewrite replicate_S_end, <- app_assoc. reflexivity.
Qed.

(** Replies resume the suspended callers one by one: the [k]-th reply goes
    to the [k]-th caller of [order] and to nobody else. *)
Lemma run_replies (h : host) (w0 : world) (n : nat) (order : list nat) :
  NoDup order → Forall (fun i => (i < n)%nat) order →
  let s := run h (map Reply order)
             {| shared := w0; tasks := replicate n Awaiting |} in
  upstream (shared s) = drop (length order) (upstream w0)
  ∧ sent (shared s) = sent w0
  ∧ length (tasks s) = n
  ∧ (∀ k i, order !! k = Some i →
       tasks s !! i = Some (Done (refresh_result h (reply_outcome w0 k))))
  ∧ (∀ i, (i < n)%nat → i ∉ order → tasks s !! i = Some Awaiting).
Proof.
  induction order as [|i order IH] using rev_ind; intros Hnd Hall; cbn zeta.
  - cbn. rewrite length_replicate, drop_0.
    repeat split; try reflexivity.
    + intros k i Hk. rewrite lookup_nil in Hk. discriminate.
    + intros i Hi _. apply lookup_replicate_2. exact Hi.
  - apply NoDup_app in Hnd as (Hnd & Hnotin & _).
    apply Forall_app in Hall as [Hall Hi].
    rewrite Forall_singleton in Hi.
    assert (Hfresh : i ∉ order).
    { intros Hin. apply (Hnotin i Hin). apply list_elem_of_singleton. reflexivity. }
    specialize (IH Hnd Hall). cbn zeta in IH.
    rewrite map_app, run_app.
    set (s := run h (map Reply order) _) in *.
    destruct IH as (Hup & Hsent & Hlen & Hdone & Hwait).
    cbn [map run foldl step].
    rewrite (Hwait i Hi Hfresh).
    destruct (resume_call_spec h (shared s)) as (Hr & Hu & Hs).
    destruct (resume_call h (shared s)) as [r w1]. cbn [fst snd] in Hr, Hu, Hs.
    cbn [shared tasks].
    split; [|split; [|split; [|split]]].
    + rewrite Hu, Hup, drop_drop, length_app. reflexivity.
    + congruence.
    + rewrite length_insert. exact Hlen.
    + intros k j Hk. apply lookup_snoc_Some in Hk as [[Hlt Hk] | [Hk ->]].
      * rewrite list_lookup_insert_ne.
        -- apply (Hdone k j Hk).
        -- intros ->. apply Hfresh. apply list_elem_of_lookup. eauto.
      * rewrite list_lookup_insert_eq by lia.
        rewrite Hr. unfold reply_outcome. rewrite Hup, lookup_drop, Hk.
        rewrite Nat.add_0_r. reflexivity.
    + intros j Hj Hnot. rewrite list_lookup_insert_ne.
      * apply Hwait; [exact Hj|]. intros Hin. apply Hnot.
        apply elem_of_app. left. exact Hin.
      * intros ->. apply Hnot. apply elem_of_app. right.
        apply list_elem_of_singleton. reflexivity.
Qed.

Lemma exchanges_logged (h : host) (n : nat) (w : world) :
  exchanges (logged (replicate n (token_request h)) w) = (exchanges w + n)%nat.
Proof.
  unfold exchanges, logged. cbn [sent]. rewrite filter_app, length_app. f_equal.
  induction n as [|n IH]; [reflexivity|].
  cbn [replicate]. rewrite filter_cons_True by reflexivity. cbn. rewrite IH. reflexivity.
Qed.

(** C2, as the code has it: there is no lock around the check and the
    refresh.  When [n] callers run their check on an absent or expired
    token before any reply has come back, each of them sends its own token
    request, [n] in all, and the caller resumed by the [k]-th reply returns
    (or raises) what that reply holds. *)
Theorem herd_refreshes_each (h : host) (w : world) (n : nat) (order : list nat) :
  token_fresh w = false →
  NoDup order → Forall (fun i => (i < n)%nat) order →
  let s := run h (herd n order) (spawn n w) in
  sent (shared s) = sent w ++ replicate n (token_request h)
  ∧ exchanges (shared s) = (exchanges w + n)%nat
  ∧ ∀ k i, order !! k = Some i →
      tasks s !! i = Some (Done (refresh_result h (reply_outcome w k))).
Proof.
  intros Hf Hnd Hall. cbn zeta. unfold herd.
  rewrite run_app, (run_begins h w n n Hf) by lia.
  rewrite Nat.sub_diag, app_nil_r.
  destruct (run_replies h (logged (replicate n (token_request h)) w) n order
              Hnd Hall) as (_ & Hsent & _ & Hdone & _).
  split; [exact Hsent|]. split.
  - unfold exchanges. rewrite Hsent. apply (exchanges_logged h n w).
  - exact Hdone.
Qed.

Lemma herd_refreshes_each_witness :
  let s := run demo_host (herd 2 [1; 0])%nat
             (spawn 2 (cold [ok_reply "body A"; ok_reply "body B"])) in
  sent (shared s) = [token_request demo_host; token_request demo_host]
  ∧ exchanges (shared s) = 2%nat
  ∧ tasks s !! 1%nat = Some (Done (Return (JStr "tokA")))
  ∧ tasks s !! 0%nat = Some (Done (Return (JStr "tokB"))).
Proof.
  destruct (herd_refreshes_each demo_host
              (cold [ok_reply "body A"; ok_reply "body B"]) 2 [1; 0]%nat)
    as (Hs & He & Hd).
  - reflexivity.
  - apply NoDup_cons. split; [|apply NoDup_singleton].
    rewrite list_elem_of_singleton. discriminate.
  - repeat constructor.
  - cbn zeta. split; [exact Hs|]. split; [exact He|]. split.
    + exact (Hd 0%nat 1%nat eq_refl).
    + exact (Hd 1%nat 0%nat eq_refl).
Defined.

(** C2 as written fails on the code: two callers on a cold cache make two
    exchanges and end up with two different tokens. *)
Lemma herd_is_not_collapsed : ¬ herd_collapses.
Proof.
  intros Hc.
  destruct (Hc demo_host (cold [ok_reply "body A"; ok_reply "body B"])
              2%nat [0; 1]%nat) as [Hex _].
  - reflexivity.
  - lia.
  - reflexivity.
  - vm_compute in Hex. discriminate Hex.
Qed.

(** * Further properties *)

(** ** The credential store, again *)

(** X1: a call sends the token request when the cache is stale and
    nothing otherwise; what it returns is what the store holds afterwards,
    and when it raises the expiry is the one from before the call. *)
Theorem get_access_token_outcome (h : host) (w : world) :
  sent (get_access_token h w).2
    = sent w ++ (if token_fresh w then [] else [token_request h])
  ∧ match (get_access_token h w).1 with
    | Return tok => access_token (get_access_token h w).2 = tok
    | Raise _ => expires_at (get_access_token h w).2 = expires_at w
    end.
Proof.
  destruct (token_fresh w) eqn:Hf.
  - rewrite (get_access_token_hit h w Hf). cbn. rewrite app_nil_r. auto.
  - split; [apply get_access_token_miss_sent; exact Hf|].
    rewrite get_access_token_run, Hf, bind_run, send_run.
    destruct (upstream w) as [|[dt [resp|e]] rest]; cbn; try reflexivity.
    rewrite finish_refresh_run. cbn.
    destruct (is_success resp); [|reflexivity].
    destruct (resp_json h resp) as [data|]; [|reflexivity].
    destruct (subscript data "access_token") as [tok|]; [|reflexivity].
    destruct (subscript data "expires_in") as [v|]; [|reflexivity].
    destruct (add_seconds (clock w + dt) v); reflexivity.
Qed.

(** X2: a 2xx reply that carries [access_token] and no usable
    [expires_in] leaves the store half updated: the call raises, the new
    token is already in [access_token], and [expires_at] is the old one. *)
Theorem refresh_without_lifetime (h : host) (w : world) (dt : Z)
    (resp : response) (rest : list (Z * res response)) (data tok : json)
    (e : exn) :
  token_fresh w = false →
  upstream w = (dt, Return resp) :: rest →
  is_success resp = true →
  resp_json h resp = Return data →
  subscript data "access_token" = Return tok →
  expiry_of data (clock w + dt) = Raise e →
  get_access_token h w = (Raise e, half_refreshed h tok dt rest w).
Proof.
  intros Hf Hu Hs Hj Ht He.
  rewrite get_access_token_run, Hf, bind_run, send_run, Hu.
  rewrite finish_refresh_run, Hs, Hj, Ht. cbn.
  unfold expiry_of in He. cbn in He.
  destruct (subscript data "expires_in") as [v|e']; cbn in He.
  - rewrite He. reflexivity.
  - inversion He; subst. reflexivity.
Qed.

Lemma refresh_without_lifetime_witness :
  get_access_token (host_of (JDict [("access_token", JStr "tokC")]))
    (warm 2500 [ok_reply "body"])
  = (Raise (KeyError "expires_in"),
     {| access_token := JStr "tokC"; expires_at := 2000; clock := 2501;
        upstream := [];
        sent := [token_request (host_of (JDict [("access_token", JStr "tokC")]))] |})
  ∧ get_access_token
      (host_of (JDict [("access_token", JStr "tokC"); ("expires_in", JStr "3600")]))
      (warm 2500 [ok_reply "body"])
    = (Raise TypeError,
       half_refreshed
         (host_of (JDict [("access_token", JStr "tokC"); ("expires_in", JStr "3600")]))
         (JStr "tokC") 1 [] (warm 2500 [ok_reply "body"])).
Proof.
  split.
  - apply (refresh_without_lifetime
             (host_of (JDict [("access_token", JStr "tokC")]))
             (warm 2500 [ok_reply "body"]) 1
             {| status_code := 200; content := "body" |} []
             (JDict [("access_token", JStr "tokC")]) (JStr "tokC")
             (KeyError "expires_in"));
      reflexivity.
  - apply (refresh_without_lifetime
             (host_of (JDict [("access_token", JStr "tokC");
                              ("expires_in", JStr "3600")]))
             (warm 2500 [ok_reply "body"]) 1
             {| status_code := 200; content := "body" |} []
             (JDict [("access_token", JStr "tokC"); ("expires_in", JStr "3600")])
             (JStr "tokC") TypeError);
      reflexivity.
Defined.

(** X3: after a refresh that brought a non empty token with a positive
    life time (an integer that fits a float), the next call at the same
    instant is served from the cache: it returns that token, sends nothing
    and changes nothing. *)
Theorem refresh_then_hit (h : host) (w : world) (dt e : Z)
    (resp : response) (rest : list (Z * res response)) (data tok : json) :
  token_fresh w = false →
  upstream w = (dt, Return resp) :: rest →
  is_success resp = true →
  resp_json h resp = Return data →
  subscript data "access_token" = Return tok →
  subscript data "expires_in" = Return (JNum e) →
  fits_float e = true →
  truthy tok = true → (0 < e)%Z →
  get_access_token h (get_access_token h w).2
    = (Return tok, (get_access_token h w).2).
Proof.
  intros Hf Hu Hs Hj Ht He Hfit Htok Hpos.
  rewrite (get_access_token_miss_ok h w dt e resp rest data tok
             Hf Hu Hs Hj Ht He Hfit).
  cbn [snd]. apply (get_access_token_hit h (refreshed h tok dt e rest w)).
  unfold token_fresh, refreshed. cbn. rewrite Htok. cbn.
  apply Z.ltb_lt. lia.
Qed.

Lemma refresh_then_hit_witness :
  get_access_token demo_host
    (get_access_token demo_host (cold [ok_reply "body A"; ok_reply "body B"])).2
  = (Return (JStr "tokA"),
     (get_access_token demo_host (cold [ok_reply "body A"; ok_reply "body B"])).2).
Proof.
  apply (refresh_then_hit demo_host (cold [ok_reply "body A"; ok_reply "body B"])
           1 3600 {| status_code := 200; content := "body A" |}
           [ok_reply "body B"] reply_A (JStr "tokA"));
    try reflexivity.
Defined.

(** X4: a token that is empty, or a life time that is not positive (an
    integer that fits a float), is stored and never served: the next call
    at the same instant sends the token request again. *)
Theorem useless_refresh_repeats (h : host) (w : world) (dt e : Z)
    (resp : response) (rest : list (Z * res response)) (data tok : json) :
  token_fresh w = false →
  upstream w = (dt, Return resp) :: rest →
  is_success resp = true →
  resp_json h resp = Return data →
  subscript data "access_token" = Return tok →
  subscript data "expires_in" = Return (JNum e) →
  fits_float e = true →
  truthy tok = false ∨ (e ≤ 0)%Z →
  sent (get_access_token h (get_access_token h w).2).2
    = sent w ++ [token_request h; token_request h].
Proof.
  intros Hf Hu Hs Hj Ht He Hfit Hbad.
  rewrite (get_access_token_miss_ok h w dt e resp rest data tok
             Hf Hu Hs Hj Ht He Hfit).
  cbn [snd]. rewrite get_access_token_miss_sent.
  - unfold refreshed. cbn. rewrite <- app_assoc. reflexivity.
  - unfold token_fresh, refreshed. cbn.
    destruct Hbad as [Hb | Hb]; [rewrite Hb; reflexivity|].
    apply andb_false_intro2. apply Z.ltb_ge. lia.
Qed.

Lemma useless_refresh_repeats_witness :
  sent (get_access_token
          (host_of (JDict [("access_token", JStr "tokC"); ("expires_in", JNum 0)]))
          (get_access_token
             (host_of (JDict [("access_token", JStr "tokC"); ("expires_in", JNum 0)]))
             (cold [ok_reply "body"; ok_reply "body"])).2).2
  = [] ++ [token_request (host_of (JDict [("access_token", JStr "tokC");
                                          ("expires_in", JNum 0)]));
           token_request (host_of (JDict [("access_token", JStr "tokC");
                                          ("expires_in", JNum 0)]))].
Proof.
  apply (useless_refresh_repeats
           (host_of (JDict [("access_token", JStr "tokC"); ("expires_in", JNum 0)]))
           (cold [ok_reply "body"; ok_reply "body"]) 1 0
           {| status_code := 200; content := "body" |} [ok_reply "body"]
           (JDict [("access_token", JStr "tokC"); ("expires_in", JNum 0)])
           (JStr "tokC"));
    try reflexivity.
  right. lia.
Defined.

(** ** The request wrappers, again *)

(** X5: without a token no request goes to the API: when
    [get_access_token] raises, each wrapper raises the same error and
    leaves the world as [get_access_token] left it. *)
Theorem wrappers_need_token (h : host) (path : string) (params : json)
    (w w1 : world) (e : exn) :
  get_access_token h w = (Raise e, w1) →
  spotify_get h path params w = (Raise e, w1)
  ∧ spotify_post h path params w = (Raise e, w1)
  ∧ spotify_put h path params w = (Raise e, w1).
Proof.
  intros Hg. rewrite spotify_get_run, spotify_post_run, spotify_put_run, Hg.
  auto.
Qed.

Lemma wrappers_need_token_witness :
  spotify_get demo_host "/me" JNull (warm 2500 [reply_with 400 "body A"; ok_reply "x"])
    = (Raise (HTTPStatusError 400),
       logged [token_request demo_host]
         {| access_token := JStr "tok"; expires_at := 2000; clock := 2501;
            upstream := [ok_reply "x"]; sent := [] |})
  ∧ spotify_post demo_host "/me" JNull
      (warm 2500 [reply_with 400 "body A"; ok_reply "x"])
    = (Raise (HTTPStatusError 400),
       logged [token_request demo_host]
         {| access_token := JStr "tok"; expires_at := 2000; clock := 2501;
            upstream := [ok_reply "x"]; sent := [] |})
  ∧ spotify_put demo_host "/me" JNull
      (warm 2500 [reply_with 400 "body A"; ok_reply "x"])
    = (Raise (HTTPStatusError 400),
       logged [token_request demo_host]
         {| access_token := JStr "tok"; expires_at := 2000; clock := 2501;
            upstream := [ok_reply "x"]; sent := [] |}).
Proof.
  apply (wrappers_need_token demo_host "/me" JNull
           (warm 2500 [reply_with 400 "body A"; ok_reply "x"])).
  reflexivity.
Defined.

(** X6: once the token is there, a wrapper sends exactly one request: its
    own verb, the API URL followed by the path, the token as bearer, and
    the parameters in the query for GET and as JSON body for POST and PUT.
    The two globals stay as [get_access_token] left them. *)
Theorem wrappers_request (h : host) (path : string) (params : json)
    (w w1 : world) (token : json) :
  get_access_token h w = (Return token, w1) →
  (sent (spotify_get h path params w).2
     = sent w1 ++ [{| r_verb := GET; r_url := API_URL ++ path;
                      r_payload := Query params; r_bearer := Some token |}]
   ∧ access_token (spotify_get h path params w).2 = access_token w1
   ∧ expires_at (spotify_get h path params w).2 = expires_at w1)
  ∧ (sent (spotify_post h path params w).2
       = sent w1 ++ [{| r_verb := POST; r_url := API_URL ++ path;
                        r_payload := JsonBody params; r_bearer := Some token |}]
     ∧ access_token (spotify_post h path params w).2 = access_token w1
     ∧ expires_at (spotify_post h path params w).2 = expires_at w1)
  ∧ (sent (spotify_put h path params w).2
       = sent w1 ++ [{| r_verb := PUT; r_url := API_URL ++ path;
                        r_payload := JsonBody params; r_bearer := Some token |}]
     ∧ access_token (spotify_put h path params w).2 = access_token w1
     ∧ expires_at (spotify_put h path params w).2 = expires_at w1).
Proof.
  intros Hg. rewrite spotify_get_run, spotify_post_run, spotify_put_run, Hg.
  rewrite !send_run.
  destruct (upstream w1) as [|[dt [resp|e]] rest]; cbn; auto 10.
Qed.

Lemma wrappers_request_witness :
  sent (spotify_get demo_host "/me" (JDict [("a", JNum 1)])
          (warm 1000 [ok_reply "body A"])).2
    = [{| r_verb := GET; r_url := "https://api.spotify.com/v1/me";
          r_payload := Query (JDict [("a", JNum 1)]);
          r_bearer := Some (JStr "tok") |}].
Proof.
  apply (proj1 (proj1 (wrappers_request demo_host "/me" (JDict [("a", JNum 1)])
                         (warm 1000 [ok_reply "body A"])
                         (warm 1000 [ok_reply "body A"]) (JStr "tok") eq_refl))).
Defined.

(** X7: PUT differs from POST on replies with status 200 or 204 or with
    an empty body, and nowhere else: on every other reply both return the
    decoded body when the status is 2xx and raise the status error when
    it is not. *)
Theorem put_like_post_elsewhere (h : host) (path : string) (params : json)
    (w w1 : world) (token : json) (dt : Z) (resp : response)
    (rest : list (Z * res response)) :
  get_access_token h w = (Return token, w1) →
  upstream w1 = (dt, Return resp) :: rest →
  status_code resp ≠ 200%Z → status_code resp ≠ 204%Z → content resp ≠ "" →
  (spotify_put h path params w).1 = classify h resp
  ∧ (spotify_post h path params w).1 = classify h resp
  ∧ (spotify_get h path params w).1 = classify h resp.
Proof.
  intros Hg Hu H200 H204 Hc.
  rewrite spotify_get_run, spotify_post_run, spotify_put_run, Hg.
  rewrite !send_run, Hu. cbn [fst].
  apply Z.eqb_neq in H200, H204. apply String.eqb_neq in Hc.
  rewrite H200, H204, Hc. cbn [orb].
  unfold classify, raise_for_status.
  destruct (is_success resp); auto.
Qed.

Lemma put_like_post_elsewhere_witness :
  (spotify_put demo_host "/me/player/play" JNull
     (warm 1000 [reply_with 202 "body A"])).1 = Return reply_A
  ∧ (spotify_post demo_host "/me/player/play" JNull
       (warm 1000 [reply_with 202 "body A"])).1 = Return reply_A
  ∧ (spotify_get demo_host "/me/player/play" JNull
       (warm 1000 [reply_with 202 "body A"])).1 = Return reply_A.
Proof.
  apply (put_like_post_elsewhere demo_host "/me/player/play" JNull
           (warm 1000 [reply_with 202 "body A"])
           (warm 1000 [reply_with 202 "body A"]) (JStr "tok") 1
           {| status_code := 202; content := "body A" |} []);
    try reflexivity; cbn; try discriminate.
Defined.

(** ** Shaping the payloads, again *)

Lemma mapR_Forall2 {A B : Type} (f : A → res B) (l : list A) (bs : list B) :
  mapR f l = Return bs ↔ Forall2 (fun a b => f a = Return b) l bs.
Proof.
  revert bs. induction l as [|a l IH]; intros bs; cbn.
  - split.
    + intros H. inversion H. constructor.
    + intros H. inversion H. reflexivity.
  - split.
    + destruct (f a) as [b|] eqn:Hb; cbn; [|discriminate].
      destruct (mapR f l) as [bs'|] eqn:Hm; cbn; [|discriminate].
      intros H. inversion H; subst. constructor; [exact Hb|].
      apply IH. reflexivity.
    + intros H. inversion H as [|? b ? bs' Hb Hrest]; subst.
      rewrite Hb. cbn. apply IH in Hrest. rewrite Hrest. reflexivity.
Qed.

Lemma mapR_raise {A B : Type} (f : A → res B) (l : list A) (e : exn) :
  mapR f l = Raise e → Exists (fun a => f a = Raise e) l.
Proof.
  induction l as [|a l IH]; cbn; [discriminate|].
  destruct (f a) as [b|e'] eqn:Hb; cbn.
  - destruct (mapR f l) as [bs|e'] eqn:Hm; cbn; [discriminate|].
    intros H. inversion H; subst. apply Exists_cons_tl. apply IH. reflexivity.
  - intros H. inversion H; subst. apply Exists_cons_hd. exact Hb.
Qed.



(** X9: whenever [search_spotify] cleans a record, [id], [name] and
    [uri] are the upstream values, [None] where the record has none; and
    an [artists] or [album] value that is falsy (absent, [None], empty) is
    returned as [None]. *)
Theorem search_record_fields (d : list (string * json)) (c : json) :
  clean_search_item (JDict d) = Return c →
  ∃ artists album,
    c = JDict [("id", field_or_none "id" d); ("name", field_or_none "name" d);
               ("uri", field_or_none "uri" d);
               ("artists", artists); ("album", album)]
    ∧ (truthy (field_or_none "artists" d) = false → artists = JNull)
    ∧ (truthy (field_or_none "album" d) = false → album = JNull).
Proof.
  unfold clean_search_item, field_or_none. cbn.
  destruct (truthy (default JNull (assoc "artists" d))) eqn:Ha; cbn.
  - destruct (artist_names (default (JList []) (assoc "artists" d)))
      as [names|]; cbn; [|discriminate].
    destruct (truthy (default JNull (assoc "album" d))) eqn:Hb; cbn.
    + destruct (dict_get (default (JDict []) (assoc "album" d)) "name" JNull)
        as [al|]; cbn; [|discriminate].
      intros H. inversion H; subst. eexists _, _.
      split; [reflexivity|]. split; discriminate.
    + intros H. inversion H; subst. eexists _, _.
      split; [reflexivity|]. split; [discriminate | reflexivity].
  - destruct (truthy (default JNull (assoc "album" d))) eqn:Hb; cbn.
    + destruct (dict_get (default (JDict []) (assoc "album" d)) "name" JNull)
        as [al|]; cbn; [|discriminate].
      intros H. inversion H; subst. eexists _, _.
      split; [reflexivity|]. split; [reflexivity | discriminate].
    + intros H. inversion H; subst. eexists _, _.
      split; [reflexivity|]. split; reflexivity.
Qed.

Lemma search_record_fields_witness :
  ∃ artists album,
    JDict [("id", JNull); ("name", JStr "n"); ("uri", JStr "u");
           ("artists", JNull); ("album", JNull)]
    = JDict [("id", JNull); ("name", JStr "n"); ("uri", JStr "u");
             ("artists", artists); ("album", album)]
    ∧ (false = false → artists = JNull)
    ∧ (false = false → album = JNull).
Proof.
  exact (search_record_fields
           [("name", JStr "n"); ("uri", JStr "u"); ("artists", JList []);
            ("album", JNull)]
           _ eq_refl).
Defined.

Lemma names_of_dicts (l : list json) :
  Forall (fun a => is_dict a = true) l →
  mapR (fun a => dict_get a "name" JNull) l = Return (map name_of l).
Proof.
  induction 1 as [|a l Ha _ IH]; cbn; [reflexivity|].
  destruct a; try discriminate Ha. cbn. rewrite IH. reflexivity.
Qed.

(** X10: a record whose [artists] is a non empty list of dicts and whose
    [album] is a non empty dict is always cleaned: the artists become the
    list of their names ([None] for one without a name) and the album
    becomes its name. *)
Theorem search_record_cleaned (d al : list (string * json)) (l : list json) :
  assoc "artists" d = Some (JList l) → l ≠ [] →
  Forall (fun a => is_dict a = true) l →
  assoc "album" d = Some (JDict al) → al ≠ [] →
  clean_search_item (JDict d)
  = Return (JDict [("id", field_or_none "id" d); ("name", field_or_none "name" d);
                   ("uri", field_or_none "uri" d);
                   ("artists", JList (map name_of l));
                   ("album", field_or_none "name" al)]).
Proof.
  intros Ha Hl Hd Hb Hal. unfold clean_search_item, field_or_none. cbn.
  rewrite Ha, Hb. cbn.
  destruct l as [|a l]; [congruence|]. destruct al as [|kv al]; [congruence|].
  cbn [truthy]. unfold artist_names. cbn [iterate mbind res_bind].
  rewrite (names_of_dicts _ Hd). reflexivity.
Qed.

Lemma search_record_cleaned_witness :
  clean_search_item
    (JDict [("uri", JStr "u");
            ("artists", JList [JDict [("name", JStr "A")]; JDict [("id", JStr "7")]]);
            ("album", JDict [("name", JStr "Alb")])])
  = Return (JDict [("id", JNull); ("name", JNull); ("uri", JStr "u");
                   ("artists", JList [JStr "A"; JNull]); ("album", JStr "Alb")]).
Proof.
  apply (search_record_cleaned
           [("uri", JStr "u");
            ("artists", JList [JDict [("name", JStr "A")]; JDict [("id", JStr "7")]]);
            ("album", JDict [("name", JStr "Alb")])]
           [("name", JStr "Alb")]
           [JDict [("name", JStr "A")]; JDict [("id", JStr "7")]]).
  - reflexivity.
  - discriminate.
  - repeat constructor.
  - reflexivity.
  - discriminate.
Defined.

(** X11: [artist_top_tracks] and [current_user_top_tracks] do not guard
    the album: a track whose [album] is there and is no dict ([None], for
    one) never comes back, the cleaner raises [AttributeError] unless
    reading its artists has raised before.  [search_spotify] guards it:
    with a falsy album its record has [None] for the album. *)
Theorem top_track_album_must_be_dict (d : list (string * json)) (v : json)
    (idx : Z) :
  assoc "album" d = Some v → is_dict v = false →
  clean_top_track (JDict d)
    = (artist_names (default (JList []) (assoc "artists" d));;
       Raise AttributeError)
  ∧ clean_ranked_track idx (JDict d)
    = (artist_names (default (JList []) (assoc "artists" d));;
       Raise AttributeError)
  ∧ (truthy v = false →
     clean_search_item (JDict d)
     = (artists ← guarded_artists d;
        Return (JDict [("id", field_or_none "id" d);
                       ("name", field_or_none "name" d);
                       ("uri", field_or_none "uri" d);
                       ("artists", artists); ("album", JNull)]))).
Proof.
  intros Hb Hv.
  unfold clean_top_track, clean_ranked_track, clean_search_item,
    guarded_artists, field_or_none.
  cbn. rewrite Hb. cbn.
  split; [|split].
  - destruct (artist_names (default (JList []) (assoc "artists" d))); cbn;
      [|reflexivity].
    destruct v; try reflexivity; discriminate Hv.
  - destruct (artist_names (default (JList []) (assoc "artists" d))); cbn;
      [|reflexivity].
    destruct v; try reflexivity; discriminate Hv.
  - intros Ht. rewrite Ht.
    destruct (truthy (default JNull (assoc "artists" d))); cbn; [|reflexivity].
    destruct (artist_names (default (JList []) (assoc "artists" d)));
      reflexivity.
Qed.

Lemma top_track_album_must_be_dict_witness :
  clean_top_track
    (JDict [("id", JStr "1"); ("artists", JList [JDict [("name", JStr "A")]]);
            ("album", JNull)])
    = Raise AttributeError
  ∧ clean_ranked_track 1
      (JDict [("id", JStr "1"); ("artists", JList [JDict [("name", JStr "A")]]);
              ("album", JNull)])
    = Raise AttributeError
  ∧ (truthy JNull = false →
     clean_search_item
       (JDict [("id", JStr "1"); ("artists", JList [JDict [("name", JStr "A")]]);
               ("album", JNull)])
     = Return (JDict [("id", JStr "1"); ("name", JNull); ("uri", JNull);
                      ("artists", JList [JStr "A"]); ("album", JNull)])).
Proof.
  apply (top_track_album_must_be_dict
           [("id", JStr "1"); ("artists", JList [JDict [("name", JStr "A")]]);
            ("album", JNull)] JNull 1);
    reflexivity.
Defined.

(** X12: [current_user_top_tracks] reads a missing or falsy [items]
    ([None], an empty list) as no tracks and returns the empty list;
    [artist_top_tracks] does so for a missing [tracks] only, and raises
    [TypeError] when [tracks] is [None]. *)
Theorem top_tracks_without_items (d : list (string * json)) :
  (truthy (default (JList []) (assoc "items" d)) = false →
     normalize_top_tracks (JDict d) = Return (JList []))
  ∧ (assoc "tracks" d = None →
     normalize_artist_top_tracks (JDict d) = Return (JDict [("tracks", JList [])]))
  ∧ (assoc "tracks" d = Some JNull →
     normalize_artist_top_tracks (JDict d) = Raise TypeError).
Proof.
  unfold normalize_top_tracks, normalize_artist_top_tracks. cbn.
  split; [|split].
  - intros ->. reflexivity.
  - intros ->. reflexivity.
  - intros ->. reflexivity.
Qed.

Lemma top_tracks_without_items_witness :
  normalize_top_tracks (JDict [("items", JNull); ("tracks", JNull)])
    = Return (JList [])
  ∧ normalize_artist_top_tracks (JDict [("items", JNull)])
    = Return (JDict [("tracks", JList [])])
  ∧ normalize_artist_top_tracks (JDict [("items", JNull); ("tracks", JNull)])
    = Raise TypeError.
Proof.
  split; [|split].
  - apply (proj1 (top_tracks_without_items [("items", JNull); ("tracks", JNull)])).
    reflexivity.
  - apply (proj1 (proj2 (top_tracks_without_items [("items", JNull)]))).
    reflexivity.
  - apply (proj2 (proj2 (top_tracks_without_items
                           [("items", JNull); ("tracks", JNull)]))).
    reflexivity.
Defined.

Lemma clean_ranked_track_inv (idx : Z) (t c : json) :
  clean_ranked_track idx t = Return c →
  ∃ d artists album,
    t = JDict d
    ∧ artist_names (default (JList []) (assoc "artists" d)) = Return artists
    ∧ dict_get (default (JDict []) (assoc "album" d)) "name" JNull = Return album
    ∧ c = ranked_record idx d artists album.
Proof.
  unfold clean_ranked_track. destruct t; try discriminate. cbn.
  destruct (artist_names (default (JList []) (assoc "artists" d)))
    as [artists|] eqn:Ha; cbn; [|discriminate].
  destruct (dict_get (default (JDict []) (assoc "album" d)) "name" JNull)
    as [album|] eqn:Hb; cbn; [|discriminate].
  intros H. inversion H; subst. exists d, artists, album. auto.
Qed.

Lemma clean_ranked_each (l : list json) :
  ∀ idx : Z,
    match clean_ranked idx l with
    | Return cs =>
        length cs = length l
        ∧ ∀ (k : nat) (t : json), l !! k = Some t →
            ∃ c, cs !! k = Some c
                 ∧ clean_ranked_track (idx + Z.of_nat k) t = Return c
    | Raise e =>
        ∃ (k : nat) (t : json),
          l !! k = Some t ∧ clean_ranked_track (idx + Z.of_nat k) t = Raise e
    end.
Proof.
  induction l as [|t l IH]; intros idx; cbn [clean_ranked].
  - split; [reflexivity|]. intros k t Hk. rewrite lookup_nil in Hk. discriminate.
  - destruct (clean_ranked_track idx t) as [c0|e0] eqn:Hc; cbn [mbind res_bind].
    + specialize (IH (idx + 1)%Z).
      destruct (clean_ranked (idx + 1) l) as [cs|e]; cbn [mbind res_bind].
      * destruct IH as [Hlen Heach]. split; [cbn; rewrite Hlen; reflexivity|].
        intros [|k] t' Hk; cbn in Hk.
        -- inversion Hk; subst. exists c0. split; [reflexivity|].
           rewrite Z.add_0_r. exact Hc.
        -- destruct (Heach k t' Hk) as (c & Hck & Hcl). exists c.
           split; [exact Hck|].
           replace (idx + Z.of_nat (S k))%Z with (idx + 1 + Z.of_nat k)%Z by lia.
           exact Hcl.
      * destruct IH as (k & t' & Hk & Hcl). exists (S k), t'.
        split; [exact Hk|].
        replace (idx + Z.of_nat (S k))%Z with (idx + 1 + Z.of_nat k)%Z by lia.
        exact Hcl.
    + exists 0%nat, t. split; [reflexivity|]. rewrite Z.add_0_r. exact Hc.
Qed.



(** X14: [get_playlist_items] is all or nothing as well.  When it
    returns, [total_tracks] is the upstream [total], [returned] is the
    number of upstream entries, [limit] and [offset] are the caller's, and
    there is one record per entry, in order; when it raises on the entries,
    the error is that of an entry that could not be cleaned. *)
Theorem playlist_items_all_or_nothing (limit offset : Z) (raw items total : json)
    (es : list json) :
  subscript raw "items" = Return items →
  subscript raw "total" = Return total →
  iterate items = Return es →
  match normalize_playlist_items limit offset raw with
  | Return out =>
      ∃ cleaned,
        out = JDict [("total_tracks", total);
                     ("returned", JNum (Z.of_nat (length es)));
                     ("limit", JNum limit); ("offset", JNum offset);
                     ("items", JList cleaned)]
        ∧ Forall2 (fun entry c => clean_playlist_entry entry = Return c) es cleaned
  | Raise e => Exists (fun entry => clean_playlist_entry entry = Raise e) es
  end.
Proof.
  intros Hi Ht He. unfold normalize_playlist_items. rewrite Hi, Ht. cbn.
  rewrite He. cbn.
  destruct (mapR clean_playlist_entry es) as [cleaned|e] eqn:Hm; cbn.
  - apply mapR_Forall2 in Hm. exists cleaned. split; [|exact Hm].
    unfold len. rewrite (Forall2_length _ _ _ Hm). reflexivity.
  - apply mapR_raise. exact Hm.
Qed.

Lemma playlist_items_all_or_nothing_witness :
  Exists (fun entry => clean_playlist_entry entry = Raise TypeError)
    [JDict [("track", JNull)]].
Proof.
  exact (playlist_items_all_or_nothing 10 0
           (JDict [("items", JList [JDict [("track", JNull)]]); ("total", JNum 1)])
           (JList [JDict [("track", JNull)]]) (JNum 1) [JDict [("track", JNull)]]
           eq_refl eq_refl eq_refl).
Defined.



(** X16: the guard of [search_spotify] covers the lookup in the payload
    and not the request: with a token at hand, a reply outside 2xx makes
    the tool raise the status error, and a 2xx reply without a body makes
    it raise the decoder's error; neither comes back as an empty result. *)
Theorem search_upstream_failure_raises (h : host) (query search_type : string)
    (limit : Z) (w w1 : world) (token : json) (dt : Z) (resp : response)
    (rest : list (Z * res response)) :
  get_access_token h w = (Return token, w1) →
  upstream w1 = (dt, Return resp) :: rest →
  (is_success resp = false →
     (search_spotify h query search_type limit w).1
     = Raise (HTTPStatusError (status_code resp)))
  ∧ (is_success resp = true → content resp = "" →
     (search_spotify h query search_type limit w).1 = Raise JSONDecodeError).
Proof.
  intros Hg Hu. unfold search_spotify.
  rewrite bind_run, spotify_get_run, Hg, send_run, Hu.
  split.
  - intros Hs. rewrite Hs. reflexivity.
  - intros Hs Hc. rewrite Hs, (resp_json_empty h resp Hc). reflexivity.
Qed.

Lemma search_upstream_failure_raises_witness :
  (search_spotify demo_host "q" "track" 5 (warm 1000 [reply_with 404 "search body"])).1
    = Raise (HTTPStatusError 404)
  ∧ (search_spotify demo_host "q" "track" 5 (warm 1000 [reply_with 200 ""])).1
    = Raise JSONDecodeError.
Proof.
  split.
  - apply (proj1 (search_upstream_failure_raises demo_host "q" "track" 5
                    (warm 1000 [reply_with 404 "search body"])
                    (warm 1000 [reply_with 404 "search body"]) (JStr "tok") 1
                    {| status_code := 404; content := "search body" |} []
                    eq_refl eq_refl)).
    reflexivity.
  - apply (proj2 (search_upstream_failure_raises demo_host "q" "track" 5
                    (warm 1000 [reply_with 200 ""])
                    (warm 1000 [reply_with 200 ""]) (JStr "tok") 1
                    {| status_code := 200; content := "" |} []
                    eq_refl eq_refl));
      reflexivity.
Defined.

(** ** Splitting and stripping, again *)

(** X17: cutting at the commas loses nothing and is the inverse of
    joining with commas: the pieces of a string hold no comma and joined
    again give the string back, and a non empty list of comma free pieces
    is what its join is cut into. *)
Theorem split_join_round_trip (s : string) (ws : list string) :
  join (split comma s) = s
  ∧ Forall (fun w => contains comma w = false) (split comma s)
  ∧ (ws ≠ [] → Forall (fun w => contains comma w = false) ws →
     split comma (join ws) = ws).
Proof.
  split; [apply join_split|]. split; [apply split_pieces_clean|].
  apply split_join.
Qed.

Lemma split_join_round_trip_witness :
  split comma (join ["a"; ""; " b"]) = ["a"; ""; " b"].
Proof.
  apply (proj2 (proj2 (split_join_round_trip "" ["a"; ""; " b"]))).
  - discriminate.
  - repeat constructor.
Defined.

Lemma split_length (sep : ascii) (s : string) :
  length (split sep s) = S (occurrences sep s).
Proof.
  induction s as [|c s IH]; cbn [split occurrences]; [reflexivity|].
  destruct (Ascii.eqb c sep).
  - cbn. rewrite IH. reflexivity.
  - pose proof (split_not_nil sep s) as Hne.
    destruct (split sep s) as [|w0 ws]; [congruence|]. exact IH.
Qed.

(** X18: both tools keep every piece: the list of URIs has one entry more
    than the string has commas, so it is never empty, and an empty string,
    a doubled comma or a comma at the end each give an empty URI. *)
Theorem uris_one_per_piece (s : string) :
  length (split_uris s) = S (occurrences comma s)
  ∧ add_to_playlist_body s = JDict [("uris", uris_json (split_uris s))]
  ∧ split_uris "" = [""]
  ∧ (∀ a b, split_uris (a ++ ",," ++ b)%string
            = split_uris a ++ [""] ++ split_uris b)
  ∧ (∀ a, split_uris (a ++ ",")%string = split_uris a ++ [""]).
Proof.
  assert (Happ : ∀ a b, split comma (a ++ String comma b)%string
                        = split comma a ++ split comma b).
  { intros a b. induction a as [|c a IH].
    - rewrite append_empty. cbn [split]. rewrite Ascii.eqb_refl. reflexivity.
    - rewrite append_cons. cbn [split]. rewrite IH.
      destruct (Ascii.eqb c comma); [reflexivity|].
      pose proof (split_not_nil comma a) as Hne.
      destruct (split comma a) as [|w0 ws]; [congruence | reflexivity]. }
  split; [unfold split_uris; rewrite length_map; apply split_length|].
  split; [reflexivity|]. split; [reflexivity|]. split.
  - intros a b. unfold split_uris.
    change (",," ++ b)%string with (String comma (String comma b)).
    rewrite Happ. cbn [split]. rewrite Ascii.eqb_refl, map_app. reflexivity.
  - intros a. unfold split_uris.
    change ","%string with (String comma ""). rewrite Happ, map_app. reflexivity.
Qed.

Lemma lstrip_first (s : string) (c : ascii) :
  first_char (lstrip s) = Some c → isspace c = false.
Proof.
  induction s as [|c0 s IH]; cbn [lstrip]; [discriminate|].
  destruct (isspace c0) eqn:Hc; [exact IH|].
  cbn. intros H. inversion H; subst. exact Hc.
Qed.

Lemma rstrip_first (s : string) (c : ascii) :
  first_char (rstrip s) = Some c → first_char s = Some c.
Proof.
  destruct s as [|c0 s]; [discriminate|]. cbn [rstrip].
  destruct (rstrip s); [destruct (isspace c0)|]; cbn; congruence.
Qed.

Lemma rstrip_last (s : string) (c : ascii) :
  last_char (rstrip s) = Some c → isspace c = false.
Proof.
  induction s as [|c0 s IH]; cbn [rstrip]; [discriminate|].
  destruct (rstrip s) as [|d r] eqn:Hr.
  - destruct (isspace c0) eqn:Hc; cbn; [discriminate|].
    intros H. inversion H; subst. exact Hc.
  - cbn [last_char]. exact IH.
Qed.

Lemma strip_no_space_at_ends (s : string) : no_space_at_ends (strip s).
Proof.
  unfold strip. split.
  - intros c Hc. apply rstrip_first in Hc. apply (lstrip_first s c Hc).
  - apply rstrip_last.
Qed.

(** The two readings of "no white space at either end" agree. *)
Lemma trimmed_no_space_at_ends (s : string) :
  trimmed s ↔ no_space_at_ends s.
Proof.
  split.
  - intros [Hl Hr]. split.
    + intros c Hc. rewrite <- Hl in Hc. apply (lstrip_first s c Hc).
    + intros c Hc. rewrite <- Hr in Hc. apply (rstrip_last s c Hc).
  - intros [Hf Hl]. split.
    + destruct s as [|c s]; [reflexivity|]. cbn [lstrip].
      rewrite (Hf c eq_refl). reflexivity.
    + clear Hf. induction s as [|c s IH]; [reflexivity|]. cbn [rstrip].
      destruct s as [|d s].
      * cbn [rstrip]. rewrite (Hl c eq_refl). reflexivity.
      * rewrite IH; [reflexivity|]. intros c' Hc'. apply Hl. exact Hc'.
Qed.

(** X19: [strip] takes white space off the two ends and nothing else:
    the string is white space, the stripped string, white space; the
    first and the last character of the stripped string are no white
    space, and stripping it again changes nothing. *)
Theorem strip_only_trims (s : string) :
  (∃ l r, blank l = true ∧ blank r = true
          ∧ (l ++ strip s ++ r)%string = s)
  ∧ no_space_at_ends (strip s)
  ∧ strip (strip s) = strip s.
Proof.
  split; [|split].
  - exists (leading s), (trailing (lstrip s)).
    split; [apply leading_lstrip|]. split; [apply rstrip_trailing|].
    apply (written_parse_field s).
  - apply strip_no_space_at_ends.
  - destruct (strip_trimmed s) as [Hl Hr]. unfold strip at 1.
    rewrite Hl. exact Hr.
Qed.

(** ** Last.fm *)

Lemma assoc_dict_set (k k' : string) (v : json) (d : list (string * json)) :
  assoc k (dict_set k' v d) = if k' =? k then Some v else assoc k d.
Proof.
  induction d as [|[k0 v0] d IH]; cbn [dict_set assoc].
  - destruct (k' =? k); reflexivity.
  - destruct (String.eqb_spec k0 k') as [->|Hne]; cbn [assoc].
    + destruct (k' =? k); reflexivity.
    + rewrite IH. destruct (String.eqb_spec k0 k) as [->|Hne'].
      * apply String.eqb_neq in Hne. rewrite String.eqb_sym in Hne.
        rewrite Hne. reflexivity.
      * reflexivity.
Qed.

Lemma assoc_app (k : string) (d1 d2 : list (string * json)) :
  assoc k (d1 ++ d2)
  = match assoc k d1 with Some v => Some v | None => assoc k d2 end.
Proof.
  induction d1 as [|[k0 v0] d1 IH]; cbn; [reflexivity|].
  destruct (k0 =? k); [reflexivity | exact IH].
Qed.

(** X20: [q.update(params)] looks up like this: a key of [params] gives
    the value [params] binds it to last, and every other key gives what [q]
    had.  So the parameters of a Last.fm call override [method], [api_key],
    [format] and [autocorrect] when they carry these keys, and leave them
    alone otherwise. *)
Theorem dict_update_lookup (k : string) (d params : list (string * json)) :
  assoc k (dict_update d params)
  = match assoc k (rev params) with
    | Some v => Some v
    | None => assoc k d
    end.
Proof.
  unfold dict_update. revert d.
  induction params as [|[k' v] params IH]; intros d; [reflexivity|].
  cbn [foldl rev fst snd]. rewrite IH, assoc_app, assoc_dict_set.
  destruct (assoc k (rev params)); [reflexivity|].
  cbn [assoc]. destruct (k' =? k); reflexivity.
Qed.

Lemma exchanges_snoc_other (rq : request) (w : world) :
  r_url rq ≠ TOKEN_URL → exchanges (logged [rq] w) = exchanges w.
Proof.
  intros Hne. unfold exchanges, logged. cbn [sent].
  rewrite filter_app, filter_cons_False by exact Hne.
  rewrite filter_nil, app_nil_r. reflexivity.
Qed.

(** X21: [lastfm_get] stays clear of the Spotify credential: it sends
    its one request to the Last.fm URL without a bearer token, makes no
    exchange with the token endpoint, leaves the two globals as they are,
    and makes of the reply what [spotify_get] makes of one. *)
Theorem lastfm_get_outcome (h : host) (key : json) (method : string)
    (params : list (string * json)) (w : world) :
  sent (lastfm_get h key method params w).2
    = sent w ++ [lastfm_request key method params]
  ∧ r_bearer (lastfm_request key method params) = None
  ∧ exchanges (lastfm_get h key method params w).2 = exchanges w
  ∧ access_token (lastfm_get h key method params w).2 = access_token w
  ∧ expires_at (lastfm_get h key method params w).2 = expires_at w
  ∧ (lastfm_get h key method params w).1
    = match upstream w with
      | [] => Raise TransportError
      | (_, o) :: _ => resp ← o; classify h resp
      end.
Proof.
  assert (Hw : ∃ w', (lastfm_get h key method params w).2 = w'
                     ∧ sent w' = sent (logged [lastfm_request key method params] w)
                     ∧ access_token w' = access_token w
                     ∧ expires_at w' = expires_at w).
  { unfold lastfm_get. rewrite bind_run, send_run.
    destruct (upstream w) as [|[dt [resp|e]] rest]; cbn; eauto.
    unfold lift, raise_for_status, mbind, M_bind.
    destruct (is_success resp); cbn; eauto. }
  destruct Hw as (w' & Hw' & Hs & Ha & He). rewrite Hw'.
  split; [exact Hs|]. split; [reflexivity|]. split.
  - unfold exchanges at 1. rewrite Hs.
    apply (exchanges_snoc_other (lastfm_request key method params) w).
    discriminate.
  - split; [exact Ha|]. split; [exact He|].
    unfold lastfm_get. rewrite bind_run, send_run.
    destruct (upstream w) as [|[dt [resp|e]] rest]; cbn; try reflexivity.
    unfold classify, lift, raise_for_status, mbind, M_bind.
    destruct (is_success resp); reflexivity.
Qed.

(** X22: [get_similar_artists] returns the names in the order of the
    reply when [similarartists.artist] is a list of dicts that each have a
    [name]; when it is a single non empty dict instead of a list, the loop
    runs over its keys and the call raises [TypeError]. *)
Theorem similar_artists_names (raw sa : json) :
  subscript raw "similarartists" = Return sa →
  (∀ l names,
     subscript sa "artist" = Return (JList l) →
     Forall2 (fun a n => subscript a "name" = Return n) l names →
     normalize_similar_artists raw
     = Return (JDict [("similar_artists", JList names)]))
  ∧ (∀ kv d,
       subscript sa "artist" = Return (JDict (kv :: d)) →
       normalize_similar_artists raw = Raise TypeError).
Proof.
  intros Hsa. unfold normalize_similar_artists, artist_names_strict.
  rewrite Hsa. cbn. split.
  - intros l names Hl Hn. rewrite Hl. cbn.
    apply mapR_Forall2 in Hn. rewrite Hn. reflexivity.
  - intros kv d Hd. rewrite Hd. reflexivity.
Qed.

Lemma similar_artists_names_witness :
  normalize_similar_artists
    (JDict [("similarartists",
             JDict [("artist", JList [JDict [("name", JStr "X")];
                                      JDict [("name", JStr "Y")]])])])
    = Return (JDict [("similar_artists", JList [JStr "X"; JStr "Y"])])
  ∧ normalize_similar_artists
      (JDict [("similarartists",
               JDict [("artist", JDict [("name", JStr "X")])])])
    = Raise TypeError.
Proof.
  split.
  - apply (proj1 (similar_artists_names
                    (JDict [("similarartists",
                             JDict [("artist", JList [JDict [("name", JStr "X")];
                                                      JDict [("name", JStr "Y")]])])])
                    _ eq_refl)
             [JDict [("name", JStr "X")]; JDict [("name", JStr "Y")]]).
    + reflexivity.
    + repeat constructor.
  - apply (proj2 (similar_artists_names
                    (JDict [("similarartists",
                             JDict [("artist", JDict [("name", JStr "X")])])])
                    _ eq_refl) ("name", JStr "X") []).
    reflexivity.
Defined.



(** ** Concurrent callers, again *)

Lemma run_begins_fresh (h : host) (w : world) (m : nat) :
  token_fresh w = true →
  ∀ pre : list task,
    run h (map Begin (seq (length pre) m))
      {| shared := w; tasks := pre ++ replicate m Ready |}
    = {| shared := w;
         tasks := pre ++ replicate m (Done (Return (access_token w))) |}.
Proof.
  intros Hf. induction m as [|m IH]; intros pre; [reflexivity|].
  cbn [seq map run foldl step tasks shared replicate].
  rewrite list_lookup_middle by reflexivity.
  rewrite start_call_run, Hf. cbn [started].
  replace (<[length pre:=Done (Return (access_token w))]> (pre ++ Ready :: replicate m Ready))
    with ((pre ++ [Done (Return (access_token w))]) ++ replicate m Ready).
  - specialize (IH (pre ++ [Done (Return (access_token w))])).
    rewrite length_app in IH. cbn [length] in IH.
    rewrite Nat.add_1_r in IH. unfold run in IH. rewrite IH.
    rewrite <- app_assoc. reflexivity.
  - rewrite insert_app_r_alt by lia.
    rewrite Nat.sub_diag, <- app_assoc. reflexivity.
Qed.

(** X24: while the cached token is fresh, any number of callers are
    served from the cache: each returns the cached token, no request is
    sent and the world stays as it was. *)
Theorem fresh_cache_serves_all (h : host) (w : world) (n : nat) :
  token_fresh w = true →
  run h (map Begin (seq 0 n)) (spawn n w)
  = {| shared := w; tasks := replicate n (Done (Return (access_token w))) |}.
Proof.
  intros Hf. exact (run_begins_fresh h w n Hf []).
Qed.

Lemma fresh_cache_serves_all_witness :
  run demo_host (map Begin (seq 0 3)) (spawn 3 (warm 1000 []))
  = {| shared := warm 1000 [];
       tasks := replicate 3 (Done (Return (JStr "tok"))) |}.
Proof.
  apply (fresh_cache_serves_all demo_host (warm 1000 []) 3). reflexivity.
Defined.

Lemma resume_call_after_issue (h : host) (w : world) :
  token_fresh w = false →
  resume_call h (logged [token_request h] w) = get_access_token h w.
Proof.
  intros Hf. rewrite get_access_token_halves, start_call_run, Hf. reflexivity.
Qed.



Lemma resume_call_ok (h : host) (w : world) (dt e : Z) (resp : response)
    (rest : list (Z * res response)) (data tok : json) :
  upstream w = (dt, Return resp) :: rest →
  is_success resp = true →
  resp_json h resp = Return data →
  subscript data "access_token" = Return tok →
  subscript data "expires_in" = Return (JNum e) →
  fits_float e = true →
  resume_call h w
  = (Return tok,
     {| access_token := tok; expires_at := (clock w + dt + e)%Z;
        clock := (clock w + dt)%Z; upstream := rest; sent := sent w |}).
Proof.
  intros Hu Hs Hj Ht He Hfit. unfold resume_call, receive.
  rewrite bind_run, Hu, finish_refresh_run, Hs, Hj, Ht. cbn [add_seconds].
  rewrite He. cbn [add_seconds clock]. rewrite Hfit. reflexivity.
Qed.

(** X26: in a herd the reply that arrives last decides what the store
    holds: whatever the earlier replies brought, after the last caller is
    resumed on a good reply (a token, and a life time that is an integer
    and fits a float) the cached token is the token of that reply and the
    expiry is counted from that moment. *)
Theorem last_reply_wins (h : host) (w : world) (n i : nat) (order : list nat)
    (dt e : Z) (resp : response) (data tok : json) :
  token_fresh w = false →
  NoDup (order ++ [i]) → Forall (fun j => (j < n)%nat) (order ++ [i]) →
  upstream w !! length order = Some (dt, Return resp) →
  is_success resp = true →
  resp_json h resp = Return data →
  subscript data "access_token" = Return tok →
  subscript data "expires_in" = Return (JNum e) →
  fits_float e = true →
  let s := run h (herd n (order ++ [i])) (spawn n w) in
  access_token (shared s) = tok
  ∧ expires_at (shared s) = (clock (shared s) + e)%Z
  ∧ tasks s !! i = Some (Done (Return tok)).
Proof.
  intros Hf Hnd Hall Hk Hs Hj Ht He Hfit. cbn zeta. unfold herd.
  rewrite map_app, app_assoc, run_app, run_app.
  rewrite (run_begins h w n n Hf) by lia.
  rewrite Nat.sub_diag, app_nil_r.
  apply NoDup_app in Hnd as (Hnd & Hnotin & _).
  apply Forall_app in Hall as [Hall Hi]. rewrite Forall_singleton in Hi.
  assert (Hfresh : i ∉ order).
  { intros Hin. apply (Hnotin i Hin). apply list_elem_of_singleton. reflexivity. }
  destruct (run_replies h (logged (replicate n (token_request h)) w) n order
              Hnd Hall) as (Hup & _ & Hlen & _ & Hwait).
  set (s := run h (map Reply order) _) in *.
  cbn [map run foldl step].
  rewrite (Hwait i Hi Hfresh).
  cbn [upstream logged] in Hup.
  rewrite (drop_S _ _ _ Hk) in Hup.
  rewrite (resume_call_ok h (shared s) dt e resp _ data tok
             Hup Hs Hj Ht He Hfit).
  cbn [shared tasks access_token expires_at clock].
  split; [reflexivity|]. split; [reflexivity|].
  apply list_lookup_insert_eq. lia.
Qed.

Lemma last_reply_wins_witness :
  let s := run demo_host (herd 2 ([1] ++ [0]))%nat
             (spawn 2 (cold [ok_reply "body A"; ok_reply "body B"])) in
  access_token (shared s) = JStr "tokB"
  ∧ expires_at (shared s) = (clock (shared s) + 3600)%Z
  ∧ tasks s !! 0%nat = Some (Done (Return (JStr "tokB"))).
Proof.
  apply (last_reply_wins demo_host (cold [ok_reply "body A"; ok_reply "body B"])
           2 0 [1%nat] 1 3600 {| status_code := 200; content := "body B" |}
           reply_B (JStr "tokB")).
  - reflexivity.
  - apply NoDup_cons. split; [|apply NoDup_singleton].
    rewrite list_elem_of_singleton. discriminate.
  - repeat constructor.
  - reflexivity.
  - reflexivity.
  - reflexivity.
  - reflexivity.
  - reflexivity.
  - reflexivity.
Defined.

(** ** Across the tools *)

(** X27: [artist_top_tracks] and [current_user_top_tracks] clean a track
    alike: on every value they both raise the same error or both return,
    and then they agree on [id], [name], [uri], [artists] and [album]; the
    one adds [popularity], the other [rank]. *)
Theorem top_track_cleaners_agree (t : json) (idx : Z) :
  match clean_top_track t, clean_ranked_track idx t with
  | Return a, Return b =>
      ∃ id name uri artists album popularity,
        a = JDict [("id", id); ("name", name); ("uri", uri);
                   ("artists", artists); ("album", album);
                   ("popularity", popularity)]
        ∧ b = JDict [("rank", JNum idx); ("id", id); ("name", name);
                     ("uri", uri); ("artists", artists); ("album", album)]
  | Raise e, Raise e' => e = e'
  | _, _ => False
  end.
Proof.
  unfold clean_top_track, clean_ranked_track.
  destruct t; try reflexivity. cbn.
  destruct (artist_names (default (JList []) (assoc "artists" d)))
    as [artists|]; cbn; [|reflexivity].
  destruct (dict_get (default (JDict []) (assoc "album" d)) "name" JNull)
    as [album|]; cbn; [|reflexivity].
  eexists _, _, _, _, _, _. split; reflexivity.
Qed.

(** X28: a wrapper called on a stale cache refreshes first and then
    uses the token it has just stored: when the token reply is a success
    carrying [access_token] and an integer [expires_in] that fits a float,
    two requests go out, the token request and the API request with the
    new token as bearer, and the result is what the second reply amounts
    to. *)
Theorem wrapper_uses_new_token (h : host) (path : string) (params : json)
    (w : world) (dt dt2 e : Z) (resp : response) (o2 : res response)
    (rest : list (Z * res response)) (data tok : json) :
  token_fresh w = false →
  upstream w = (dt, Return resp) :: (dt2, o2) :: rest →
  is_success resp = true →
  resp_json h resp = Return data →
  subscript data "access_token" = Return tok →
  subscript data "expires_in" = Return (JNum e) →
  fits_float e = true →
  spotify_get h path params w
  = (resp2 ← o2; classify h resp2,
     {| access_token := tok; expires_at := (clock w + dt + e)%Z;
        clock := (clock w + dt + dt2)%Z; upstream := rest;
        sent := sent w ++ [token_request h;
                           api_request GET path (Query params) tok] |}).
Proof.
  intros Hf Hu Hs Hj Ht He Hfit.
  rewrite spotify_get_run.
  rewrite (get_access_token_miss_ok h w dt e resp ((dt2, o2) :: rest) data tok
             Hf Hu Hs Hj Ht He Hfit).
  rewrite send_run. unfold refreshed. cbn [upstream sent clock access_token expires_at].
  rewrite <- app_assoc. cbn [app].
  destruct o2 as [resp2|e2]; cbn; [|reflexivity].
  unfold classify, raise_for_status. destruct (is_success resp2); reflexivity.
Qed.

Lemma wrapper_uses_new_token_witness :
  spotify_get demo_host "/search" JNull
    (cold [ok_reply "body A"; ok_reply "search body"])
  = (Return search_payload,
     {| access_token := JStr "tokA"; expires_at := 4601; clock := 1002;
        upstream := [];
        sent := [] ++ [token_request demo_host;
                       api_request GET "/search" (Query JNull) (JStr "tokA")] |}).
Proof.
  apply (wrapper_uses_new_token demo_host "/search" JNull
           (cold [ok_reply "body A"; ok_reply "search body"]) 1 1 3600
           {| status_code := 200; content := "body A" |}
           (Return {| status_code := 200; content := "search body" |}) []
           reply_A (JStr "tokA"));
    reflexivity.
Defined.

(** X29: the test against the literal expiry lets a token go out that
    expires while the request is under way: a wrapper called before
    [expires_at] sends the cached token as bearer without any refresh, even
    when the reply comes in at or after [expires_at]. *)
Theorem bearer_may_expire_in_flight (h : host) (path : string) (params : json)
    (w : world) (dt : Z) (o : res response) (rest : list (Z * res response)) :
  token_fresh w = true →
  upstream w = (dt, o) :: rest →
  (expires_at w ≤ clock w + dt)%Z →
  sent (spotify_get h path params w).2
    = sent w ++ [api_request GET path (Query params) (access_token w)]
  ∧ exchanges (spotify_get h path params w).2 = exchanges w
  ∧ (expires_at (spotify_get h path params w).2
     ≤ clock (spotify_get h path params w).2)%Z
  ∧ token_fresh (spotify_get h path params w).2 = false.
Proof.
  intros Hf Hu Hlate.
  rewrite spotify_get_run, (get_access_token_hit h w Hf), send_run, Hu.
  assert (Hw : ∃ w', (let '(r, w2) :=
                        (o, {| access_token := access_token w;
                               expires_at := expires_at w;
                               clock := (clock w + dt)%Z; upstream := rest;
                               sent := sent w ++ [api_request GET path (Query params)
                                                    (access_token w)] |})
                      in match r with
                         | Return resp =>
                             (if is_success resp then resp_json h resp
                              else Raise (HTTPStatusError (status_code resp)), w2)
                         | Raise e => (Raise e, w2)
                         end).2 = w'
                     ∧ w' = {| access_token := access_token w;
                               expires_at := expires_at w;
                               clock := (clock w + dt)%Z; upstream := rest;
                               sent := sent w ++ [api_request GET path (Query params)
                                                    (access_token w)] |}).
  { destruct o; eexists; split; reflexivity. }
  destruct Hw as (w' & Hw' & ->).
  cbn in Hw'. cbn. rewrite Hw'. cbn.
  split; [reflexivity|]. split.
  - apply (exchanges_snoc_other
             (api_request GET path (Query params) (access_token w)) w).
    intros H. apply (f_equal (String.get 9)) in H. cbv in H. discriminate H.
  - split; [exact Hlate|].
    unfold token_fresh. cbn. apply andb_false_intro2. apply Z.ltb_ge. exact Hlate.
Qed.

Lemma bearer_may_expire_in_flight_witness :
  sent (spotify_get demo_host "/me" JNull (warm 1999 [(5%Z, Raise TransportError)])).2
    = [] ++ [api_request GET "/me" (Query JNull) (JStr "tok")]
  ∧ exchanges (spotify_get demo_host "/me" JNull
                 (warm 1999 [(5%Z, Raise TransportError)])).2
    = exchanges (warm 1999 [(5%Z, Raise TransportError)])
  ∧ (expires_at (spotify_get demo_host "/me" JNull
                   (warm 1999 [(5%Z, Raise TransportError)])).2
     ≤ clock (spotify_get demo_host "/me" JNull
                (warm 1999 [(5%Z, Raise TransportError)])).2)%Z
  ∧ token_fresh (spotify_get demo_host "/me" JNull
                   (warm 1999 [(5%Z, Raise TransportError)])).2 = false.
Proof.
  apply (bearer_may_expire_in_flight demo_host "/me" JNull
           (warm 1999 [(5%Z, Raise TransportError)]) 5 (Raise TransportError) []).
  - reflexivity.
  - reflexivity.
  - cbn. lia.
Defined.
